(** * quicmesh: the mesh tunnel orchestrator of quicwire

    A shallow embedding of [internal/quicmesh.go]: the tables of the
    [QuicMesh] struct, the start-up sequence of [Start], the tasks spawned by
    [setupTunnel] and the forwarding loop of [enableTrafficForwarding].

    The program is a handful of goroutines over two shared maps.  It is
    modelled as a machine whose state holds the two maps and the program
    point of every goroutine.  One transition runs the statements of one
    goroutine from one access to the maps, or one call that waits, to the
    next; what the outside world answers (the result of a dial, the packet
    read from the device) is an argument of the transition.  A schedule is a
    list of such choices, and [run] makes the machine follow it. *)

From Stdlib Require Import ZArith Lia Bool Ascii.
From stdpp Require Import base option list strings pretty gmap fin_maps.

(** ** Data model *)

Abbreviation byte := Byte.byte.

(** [time.Duration] counts nanoseconds. *)
Definition Duration := Z.
Definition Second : Duration := 1000000000%Z.

Definition retryInterval : Duration := (5 * Second)%Z.
Definition retries : nat := 10.

(** A Go [error] value, by its message. *)
Definition error := string.

(** [fmt.Errorf(msg ++ ": %w", err)]. *)
Definition Errorf (msg : string) (err : error) : error := msg +:+ ": " +:+ err.

(** The structs of the configuration, with the fields [quicmesh.go] reads. *)
Record NodeInterfaceConfig := {
  localNodeIP : string;
  localEndpoint : string;
  listenPort : Z
}.

Record Peer := {
  endpoint : string;
  allowedIPs : list string
}.

Record QuicConf := {
  nodeInterface : NodeInterfaceConfig;
  peers : list Peer
}.

(** [&QuicConf{}]. *)
Definition emptyConf : QuicConf :=
  {| nodeInterface := {| localNodeIP := ""; localEndpoint := ""; listenPort := 0 |};
     peers := [] |}.

(** A [quic.Connection] is an established session; sessions are told apart by
    a number. *)
Definition Connection := nat.

(** What [quicmesh.go] observes of a [*Client]: the endpoint given to
    [NewClient], the connection set by [SetConnection] or by a successful
    [Dial], and whether [AttachHandler] was called. *)
Record Client := {
  cl_endpoint : string;
  cl_conn : option Connection;
  cl_handler : bool
}.

Definition NewClient (ep : string) : Client :=
  {| cl_endpoint := ep; cl_conn := None; cl_handler := false |}.

Definition SetConnection (c : Client) (conn : Connection) : Client :=
  {| cl_endpoint := cl_endpoint c; cl_conn := Some conn; cl_handler := cl_handler c |}.

Definition AttachHandler (c : Client) : Client :=
  {| cl_endpoint := cl_endpoint c; cl_conn := cl_conn c; cl_handler := true |}.

(** The [QuicMesh] struct without its logger and the name of its
    configuration file.  The interface is there once it has a name. *)
Record QuicMesh := {
  qc : QuicConf;
  localIf : option string;
  portBinding : string;
  symmetricNAT : bool;
  connections : gmap string Connection;
  clients : gmap string Client;
  disableClient : bool;
  disableServer : bool
}.

Definition NewQuicMesh (dc ds : bool) : QuicMesh :=
  {| qc := emptyConf; localIf := None; portBinding := ""; symmetricNAT := false;
     connections := ∅; clients := ∅; disableClient := dc; disableServer := ds |}.

Definition set_qc (conf : QuicConf) (q : QuicMesh) : QuicMesh :=
  {| qc := conf; localIf := localIf q; portBinding := portBinding q;
     symmetricNAT := symmetricNAT q; connections := connections q;
     clients := clients q; disableClient := disableClient q; disableServer := disableServer q |}.

Definition set_localIf (name : string) (q : QuicMesh) : QuicMesh :=
  {| qc := qc q; localIf := Some name; portBinding := portBinding q;
     symmetricNAT := symmetricNAT q; connections := connections q;
     clients := clients q; disableClient := disableClient q; disableServer := disableServer q |}.

Definition set_clients (m : gmap string Client) (q : QuicMesh) : QuicMesh :=
  {| qc := qc q; localIf := localIf q; portBinding := portBinding q;
     symmetricNAT := symmetricNAT q; connections := connections q;
     clients := m; disableClient := disableClient q; disableServer := disableServer q |}.

Definition set_connections (m : gmap string Connection) (q : QuicMesh) : QuicMesh :=
  {| qc := qc q; localIf := localIf q; portBinding := portBinding q;
     symmetricNAT := symmetricNAT q; connections := m;
     clients := clients q; disableClient := disableClient q; disableServer := disableServer q |}.

(** ** Byte slices and addresses *)

(** [b[lo:hi]] on a slice whose length is its capacity: a run-time panic when
    the bounds are out of range. *)
Definition slice (b : list byte) (lo hi : nat) : option (list byte) :=
  if decide (lo ≤ hi ∧ hi ≤ length b) then Some (take (hi - lo) (drop lo b)) else None.

Definition byte_dec (b : byte) : string := pretty (Byte.to_N b).

(** [net.IP.String] on a four-byte address: dotted decimal.  The empty
    address prints as <nil>; the other lengths do not occur here. *)
Definition IP_String (ip : list byte) : string :=
  match ip with
  | [] => "<nil>"
  | [a; b; c; d] => byte_dec a +:+ "." +:+ byte_dec b +:+ "." +:+ byte_dec c +:+ "." +:+ byte_dec d
  | _ => "?"
  end.

(** ** What the goroutines leave behind

    Every goroutine keeps the list of the calls it made that reach outside the
    process: lines handed to the logger (by level and format string), STUN
    requests, dials, sleeps and sends. *)

Inductive Level := Debug | Info | Warn | Error | Fatal.

Inductive Event :=
| ELog (l : Level) (msg : string)
| EPanic (msg : string)
| EStunNAT (port : Z)
| EStunBinding (port : Z)
| EDial (ep : string) (ok : bool)
| ESleep (d : Duration)
| ESend (c : Client) (data : list byte) (ok : bool).

(** ** The outside world

    The functions [quicmesh.go] calls and does not define, by their results: the
    configuration reader, the TUN library and the two [ip] commands, the two
    STUN requests and [net.SplitHostPort]. *)

Record World := {
  readQuicConf : error + QuicConf;
  water_New : error + string;
  ip_addr_add : string → string → option error;
  ip_link_up : string → option error;
  IsSymmetricNAT : Z → bool * option error;
  GetPortBinding : Z → string * option error;
  SplitHostPort : string → error + string * string
}.

(** What a blocking call returns when it returns. *)
Inductive DialResult := DialOk (conn : Connection) | DialErr (e : error).
Inductive ReadResult := ReadOk (data : list byte) | ReadErr (e : error).

(** A statement either goes on with a value or ends the process:
    [logger.Fatal] and [logger.Fatalf] write the line and call [os.Exit(1)]. *)
Inductive Outcome (A : Type) := Ret (a : A) | Exit.
Arguments Ret {A} a.
Arguments Exit {A}.

(** ** Start, up to the first goroutine *)

Definition createTunIface (w : World) (q : QuicMesh) : (error + QuicMesh) * list Event :=
  match water_New w with
  | inl e => (inl (Errorf "failed to create Tun interface" e), [])
  | inr name =>
    let l1 := [ELog Debug "TUN interface created: %s"] in
    let tunnelIPStr := localEndpoint (nodeInterface (qc q)) +:+ "/24" in
    match ip_addr_add w tunnelIPStr name with
    | Some e => (inl (Errorf "failed to assign IP address to TUN interface" e), l1)
    | None =>
      let l2 := l1 ++ [ELog Debug "IP address assigned to TUN interface"] in
      match ip_link_up w name with
      | Some e => (inl (Errorf "failed to change the state to UP for the TUN interface" e), l2)
      | None =>
        (inr (set_localIf name q), l2 ++ [ELog Debug "TUN interface %s is up and running"])
      end
    end
  end.

Definition findPortBinding (w : World) (q : QuicMesh) : Outcome (string * option error) * list Event :=
  let port := listenPort (nodeInterface (qc q)) in
  let '(isSymmetric, err) := IsSymmetricNAT w port in
  let l1 := EStunNAT port :: match err with Some e => [ELog Error e] | None => [] end in
  if isSymmetric then
    (Ret ("", Some "node is behind Symmetric NAT"), l1 ++ [ELog Warn "Node is behind Symmetric NAT"])
  else
    let '(res, err) := GetPortBinding w port in
    let l2 := l1 ++ [EStunBinding port] in
    match err with
    | Some e => (Exit, l2 ++ [ELog Fatal "stun request failed: %v"])
    | None => (Ret (res, None), l2 ++ [ELog Info "Port binding returned by STUN request: %s"])
    end.

(** Where [Start] stands after its sequential part: it has returned an
    error, the process is gone, or it is about to call [setupTunnel]. *)
Inductive Started :=
| StartErr (e : error)
| StartExit
| StartSetup (q : QuicMesh).

Definition Start_entry (w : World) (q : QuicMesh) : Started * list Event :=
  let l0 := [ELog Info "QuicMesh Starting"; ELog Info "Read the quic config file : %s"] in
  match readQuicConf w with
  | inl e => (StartErr e, l0)
  | inr conf =>
    let q1 := set_qc conf q in
    let l1 := l0 ++ [ELog Debug "QuicMesh config: %v"; ELog Info "Create tunnel interface on local host"] in
    match createTunIface w q1 with
    | (inl e, l) => (StartErr e, l1 ++ l)
    | (inr q2, l) =>
      if disableServer q2 then (StartSetup q2, l1 ++ l)
      else
        match findPortBinding w q2 with
        | (Exit, l') => (StartExit, l1 ++ l ++ l')
        | (Ret _, l') => (StartSetup q2, l1 ++ l ++ l')
        end
    end
  end.

(** ** Goroutines *)

(** The goroutine that runs [Start]. *)
Inductive MainPc :=
| M_Start
| M_Setup
| M_Wait
| M_Range (ps : list Peer)
| M_Fwd
| M_Returned (r : option error).

(** The goroutine of the server: before [StartServer] has a listener, inside
    its accept loop, and after [StartServer] has returned. *)
Inductive SrvPc := S_Start | S_Accepting | S_Returned.

(** The goroutine [setupTunnel] starts for one peer: at its first statement,
    inside [RetryOperation] with [failed] failed attempts behind it, at the
    assignment to [qn.clients], returned, or stopped by a fatal line. *)
Inductive DialPc :=
| D_Start
| D_Retry (c : Client) (host : string) (failed : nat)
| D_Register (c : Client)
| D_Done
| D_Failed.

Record DialTask := {
  d_peer : Peer;
  d_pc : DialPc;
  d_log : list Event
}.

(** The goroutine of [enableTrafficForwarding]: its buffer [packet]. *)
Record FwdTask := {
  f_packet : list byte;
  f_log : list Event
}.

Record Sys := {
  qn : QuicMesh;
  wg : nat;
  exited : bool;
  main : MainPc;
  main_log : list Event;
  server : option SrvPc;
  server_log : list Event;
  dials : list DialTask;
  fwd : option FwdTask;
  caller_log : list Event
}.

Definition boot (dc ds : bool) (wg0 : nat) : Sys :=
  {| qn := NewQuicMesh dc ds; wg := wg0; exited := false;
     main := M_Start; main_log := [];
     server := None; server_log := [];
     dials := []; fwd := None; caller_log := [] |}.

Definition upd_main (pc : MainPc) (l : list Event) (s : Sys) : Sys :=
  {| qn := qn s; wg := wg s; exited := exited s;
     main := pc; main_log := main_log s ++ l;
     server := server s; server_log := server_log s;
     dials := dials s; fwd := fwd s; caller_log := caller_log s |}.

Definition upd_qn (q : QuicMesh) (s : Sys) : Sys :=
  {| qn := q; wg := wg s; exited := exited s;
     main := main s; main_log := main_log s;
     server := server s; server_log := server_log s;
     dials := dials s; fwd := fwd s; caller_log := caller_log s |}.

Definition upd_wg (n : nat) (s : Sys) : Sys :=
  {| qn := qn s; wg := n; exited := exited s;
     main := main s; main_log := main_log s;
     server := server s; server_log := server_log s;
     dials := dials s; fwd := fwd s; caller_log := caller_log s |}.

Definition os_Exit (s : Sys) : Sys :=
  {| qn := qn s; wg := wg s; exited := true;
     main := main s; main_log := main_log s;
     server := server s; server_log := server_log s;
     dials := dials s; fwd := fwd s; caller_log := caller_log s |}.

Definition upd_server (pc : SrvPc) (l : list Event) (s : Sys) : Sys :=
  {| qn := qn s; wg := wg s; exited := exited s;
     main := main s; main_log := main_log s;
     server := Some pc; server_log := server_log s ++ l;
     dials := dials s; fwd := fwd s; caller_log := caller_log s |}.

Definition upd_dials (ds : list DialTask) (s : Sys) : Sys :=
  {| qn := qn s; wg := wg s; exited := exited s;
     main := main s; main_log := main_log s;
     server := server s; server_log := server_log s;
     dials := ds; fwd := fwd s; caller_log := caller_log s |}.

Definition upd_fwd (f : FwdTask) (s : Sys) : Sys :=
  {| qn := qn s; wg := wg s; exited := exited s;
     main := main s; main_log := main_log s;
     server := server s; server_log := server_log s;
     dials := dials s; fwd := Some f; caller_log := caller_log s |}.

Definition upd_caller (l : list Event) (s : Sys) : Sys :=
  {| qn := qn s; wg := wg s; exited := exited s;
     main := main s; main_log := main_log s;
     server := server s; server_log := server_log s;
     dials := dials s; fwd := fwd s; caller_log := caller_log s ++ l |}.

(** *** The goroutine of Start *)

(** The second half of [setupTunnel]: the loop over the peers unless the
    client side is disabled. *)
Definition after_server (q : QuicMesh) : MainPc :=
  if disableClient q then M_Fwd else M_Range (peers (qc q)).

Definition go_dial (p : Peer) : DialTask :=
  {| d_peer := p; d_pc := D_Start; d_log := [] |}.

(** [make([]byte, 1500)]. *)
Definition new_packet : list byte := replicate 1500 Byte.x00.

Definition main_step (w : World) (s : Sys) : option Sys :=
  match main s with
  | M_Start =>
    match Start_entry w (qn s) with
    | (StartErr e, l) => Some (upd_main (M_Returned (Some e)) l s)
    | (StartExit, l) => Some (os_Exit (upd_main M_Start l s))
    | (StartSetup q, l) => Some (upd_qn q (upd_main M_Setup l s))
    end
  | M_Setup =>
    if disableServer (qn s) then Some (upd_main (after_server (qn s)) [] s)
    else
      (* wg.Add(1); go func() { ... }(); then wg.Wait() *)
      Some (upd_wg (S (wg s)) (upd_server S_Start [] (upd_main M_Wait [] s)))
  | M_Wait =>
    if decide (wg s = 0) then Some (upd_main (after_server (qn s)) [] s) else None
  | M_Range [] => Some (upd_main M_Fwd [] s)
  | M_Range (peer :: ps) =>
    Some (upd_dials (dials s ++ [go_dial peer])
            (upd_main (M_Range ps) [ELog Debug "Starting client for peer %s"] s))
  | M_Fwd =>
    Some (upd_fwd {| f_packet := new_packet; f_log := [] |} (upd_main (M_Returned None) [] s))
  | M_Returned _ => None
  end.

(** *** The goroutine of the server *)

Inductive SrvAct :=
| SrvListen (r : option error)
| SrvAccept (host : string) (conn : Connection)
| SrvReturn (r : option error).

(** Modelled from the spec: [StartServer] and the [Server] type are not in
    [quicmesh.go].  The spec has [StartServer] block for as long as the
    server runs, and has start-up wait for no more than a listener that is
    ready.  So: when the listener cannot be had, [StartServer] returns the
    error; when it is there, [StartServer] calls [wg.Done()] and accepts
    sessions until it returns.  [StartServer] is handed [qn], and
    [quicmesh.go] reads [qn.connections] without ever writing it: the writes
    are taken to be the server's, one transition for each session it
    accepts, under the remote host of the session.  No schedule has to
    contain such a transition.  Whatever [StartServer] returns goes to
    [logger.Fatal], which is in [quicmesh.go]. *)
Definition server_step (s : Sys) (a : SrvAct) : option Sys :=
  match server s, a with
  | Some S_Start, SrvListen None =>
    match wg s with
    | 0 => Some (os_Exit (upd_server S_Returned
                   [ELog Info "Starting server on %s"; EPanic "sync: negative WaitGroup counter"] s))
    | S n => Some (upd_wg n (upd_server S_Accepting [ELog Info "Starting server on %s"] s))
    end
  | Some S_Start, SrvListen (Some e) =>
    Some (os_Exit (upd_server S_Returned [ELog Info "Starting server on %s"; ELog Fatal e] s))
  | Some S_Accepting, SrvAccept host conn =>
    Some (upd_qn (set_connections (<[host := conn]> (connections (qn s))) (qn s)) s)
  | Some S_Accepting, SrvReturn r =>
    Some (os_Exit (upd_server S_Returned [ELog Fatal (default "<nil>" r)] s))
  | _, _ => None
  end.

(** *** The goroutine of one peer *)

(** [peer.allowedIPs[0]]; without a first element the index expression
    panics. *)
Definition canonical (p : Peer) : option string := head (allowedIPs p).

(** Modelled from the spec: [RetryOperation] is not in [quicmesh.go].  The spec
    has it run the operation, and after a failure count the attempt, wait the
    interval and run it again, up to [retries] attempts; the error of the last
    attempt is returned.  [failed] counts the attempts that have failed so
    far: the result is the wait before the next attempt, or [None] when the
    budget is used up. *)
Definition RetryOperation_next (wait : Duration) (retries failed : nat) : option Duration :=
  if decide (failed < retries) then Some wait else None.

(** One transition of a dial goroutine: the new table of clients, the new
    program point, what it logged, and whether the process is gone. *)
Definition dial_step (w : World) (q : QuicMesh) (t : DialTask) (r : DialResult)
  : option (QuicMesh * DialPc * list Event * bool) :=
  let peer := d_peer t in
  match d_pc t with
  | D_Start =>
    match canonical peer with
    | None => Some (q, D_Failed, [EPanic "index out of range [0] with length 0"], true)
    | Some key =>
      match clients q !! key with
      | Some _ => Some (q, D_Done, [ELog Info "Client already exists for peer %s [ %s ]"], false)
      | None =>
        let c := NewClient (endpoint peer) in
        match SplitHostPort w (endpoint peer) with
        | inl e => Some (q, D_Failed, [ELog Fatal "Failed to split host and port: %v"], true)
        | inr (host, _) => Some (q, D_Retry c host 0, [], false)
        end
      end
    end
  | D_Retry c host failed =>
    match connections q !! host with
    | Some conn =>
      Some (q, D_Register (SetConnection c conn),
            [ELog Info "Connection already exists for peer endpoint %s"], false)
    | None =>
      let l0 := [ELog Debug "No existing connection to the peer endpoint %s."] in
      match r with
      | DialErr e =>
        let l1 := l0 ++ [EDial (endpoint peer) false; ELog Debug "Failed to dial: %v";
                         ELog Warn "Retrying to dial %s"] in
        match RetryOperation_next retryInterval retries (S failed) with
        | Some d => Some (q, D_Retry c host (S failed), l1 ++ [ESleep d], false)
        | None => Some (q, D_Failed, l1 ++ [ELog Fatal "Peer is not reachable or : %v"], true)
        end
      | DialOk conn =>
        Some (q, D_Register (AttachHandler (SetConnection c conn)),
              l0 ++ [EDial (endpoint peer) true;
                     ELog Info "Dialed new connection to peer endpoint %s."], false)
      end
    end
  | D_Register c =>
    match canonical peer with
    | None => None
    | Some key => Some (set_clients (<[key := c]> (clients q)) q, D_Done, [], false)
    end
  | D_Done | D_Failed => None
  end.

Definition retask (t : DialTask) (pc : DialPc) (l : list Event) : DialTask :=
  {| d_peer := d_peer t; d_pc := pc; d_log := d_log t ++ l |}.

Definition dials_step (w : World) (s : Sys) (i : nat) (r : DialResult) : option Sys :=
  match dials s !! i with
  | None => None
  | Some t =>
    match dial_step w (qn s) t r with
    | None => None
    | Some (q, pc, l, gone) =>
      let s' := upd_qn q (upd_dials (<[i := retask t pc l]> (dials s)) s) in
      Some (if gone : bool then os_Exit s' else s')
    end
  end.

(** *** The forwarding goroutine *)

(** [qn.localIf.Read(packet)]: the device hands over one packet; what fits is
    copied to the front of the buffer, the rest of the buffer stays. *)
Definition Read (packet data : list byte) : nat * list byte :=
  let n := min (length data) (length packet) in
  (n, take n data ++ drop n packet).
Arguments Read : simpl never.

(** [net.IP(packet[16:20]).String()]. *)
Definition dst_of (packet : list byte) : option string :=
  IP_String <$> slice packet 16 20.

(** One turn of the loop: the buffer after it, what it logged, and whether
    the process is gone. *)
Definition fwd_step (q : QuicMesh) (packet : list byte) (r : ReadResult) (sent : option error)
  : list byte * list Event * bool :=
  match r with
  | ReadErr e => (packet, [ELog Fatal "Failed to read packet from TUN interface: %v"], true)
  | ReadOk data =>
    let '(n, packet) := Read packet data in
    match slice packet 16 20 with
    | None => (packet, [EPanic "slice bounds out of range"], true)
    | Some ip =>
      let dstIP := IP_String ip in
      let l0 := [ELog Debug "Received packet from local tun interface: %v for destination %s"] in
      match clients q !! dstIP with
      | Some c =>
        (packet,
         l0 ++ ESend c (take n packet) (bool_decide (sent = None))
            :: match sent with
               | Some e => [ELog Error "failed to send client message: %v"]
               | None => []
               end,
         false)
      | None =>
        (packet, l0 ++ [ELog Debug "No client connection found for destination IP %s"], false)
      end
    end
  end.

Definition fwd_task_step (s : Sys) (r : ReadResult) (sent : option error) : option Sys :=
  match fwd s with
  | None => None
  | Some f =>
    let '(packet, l, gone) := fwd_step (qn s) (f_packet f) r sent in
    let s' := upd_fwd {| f_packet := packet; f_log := f_log f ++ l |} s in
    Some (if gone : bool then os_Exit s' else s')
  end.

(** *** Stop *)

Definition Stop (s : Sys) : Sys := upd_caller [ELog Info "QuicMesh Stop"] s.

(** ** The machine *)

Inductive Choice :=
| ChMain
| ChServer (a : SrvAct)
| ChDial (i : nat) (r : DialResult)
| ChFwd (r : ReadResult) (sent : option error)
| ChStop.

(** Nothing runs in a process that is gone; a goroutine that waits, or is
    not there, has no transition. *)
Definition step (w : World) (s : Sys) (c : Choice) : option Sys :=
  if exited s then None
  else
    match c with
    | ChMain => main_step w s
    | ChServer a => server_step s a
    | ChDial i r => dials_step w s i r
    | ChFwd r sent => fwd_task_step s r sent
    | ChStop => Some (Stop s)
    end.

Fixpoint run (w : World) (s : Sys) (cs : list Choice) : option Sys :=
  match cs with
  | [] => Some s
  | c :: cs' =>
    match step w s c with
    | Some s' => run w s' cs'
    | None => None
    end
  end.

(** The states of a process that was started with the two flags. *)
Definition reachable (w : World) (dc ds : bool) (wg0 : nat) (s : Sys) : Prop :=
  ∃ cs, run w (boot dc ds wg0) cs = Some s.

(** ** Reading the logs *)

(** The calls of [SendBytes]: on which client, with which bytes. *)
Definition sends (l : list Event) : list (Client * list byte) :=
  omap (λ e, match e with ESend c d _ => Some (c, d) | _ => None end) l.

Definition panics (l : list Event) : list string :=
  omap (λ e, match e with EPanic m => Some m | _ => None end) l.

(** The dials of a dial goroutine and its waits, in order. *)
Definition attempts (l : list Event) : list Event :=
  omap (λ e, match e with EDial _ _ | ESleep _ => Some e | _ => None end) l.

Definition dial_count (l : list Event) : nat :=
  length (omap (λ e, match e with EDial _ ok => Some ok | _ => None end) l).

(** [k] failed dials, each followed by the wait. *)
Fixpoint backoffs (ep : string) (k : nat) : list Event :=
  match k with
  | 0 => []
  | S k' => backoffs ep k' ++ [EDial ep false; ESleep retryInterval]
  end.

(** The lines of one turn of the loop that read a packet of [n] bytes and
    found [hit] in the table. *)
Definition turn_log (hit : option Client) (n : nat) (packet : list byte) (sent : option error)
  : list Event :=
  ELog Debug "Received packet from local tun interface: %v for destination %s" ::
  match hit with
  | Some c =>
    ESend c (take n packet) (bool_decide (sent = None)) ::
    match sent with
    | Some e => [ELog Error "failed to send client message: %v"]
    | None => []
    end
  | None => [ELog Debug "No client connection found for destination IP %s"]
  end.

(** The buffer of the forwarding loop after the packets [reads] have been
    read into it one after the other. *)
Definition buffer_after (reads : list (list byte)) : list byte :=
  foldl (λ packet data, (Read packet data).2) new_packet reads.

(** ** What holds in every state *)

(** A dial goroutine: its client is the one made for its peer, the host it
    looks up is the host of the peer's endpoint, and its log has the shape the
    retry loop gives it. *)
Definition task_inv (w : World) (t : DialTask) : Prop :=
  let ep := endpoint (d_peer t) in
  match d_pc t with
  | D_Start => attempts (d_log t) = []
  | D_Retry c host k =>
    c = NewClient ep ∧ (∃ port, SplitHostPort w ep = inr (host, port)) ∧
    is_Some (canonical (d_peer t)) ∧
    attempts (d_log t) = backoffs ep k ∧ k < retries
  | D_Register c =>
    cl_endpoint c = ep ∧ is_Some (cl_conn c) ∧ is_Some (canonical (d_peer t)) ∧
    ∃ k, k < retries ∧
      (attempts (d_log t) = backoffs ep k ∨ attempts (d_log t) = backoffs ep k ++ [EDial ep true])
  | D_Done =>
    ∃ k, k < retries ∧
      (attempts (d_log t) = backoffs ep k ∨ attempts (d_log t) = backoffs ep k ++ [EDial ep true])
  | D_Failed =>
    attempts (d_log t) = [] ∨ attempts (d_log t) = backoffs ep (retries - 1) ++ [EDial ep false]
  end.

(** The server goroutine as the goroutine of [Start] finds it while it waits,
    and after it has waited. *)
Definition srv_waited (wg0 : nat) (s : Sys) : Prop :=
  (server s = Some S_Start ∧ wg s = S wg0) ∨
  (server s = Some S_Accepting ∧ wg s = wg0) ∨
  (server s = Some S_Returned ∧ exited s = true).

Definition srv_past (ds : bool) (wg0 : nat) (s : Sys) : Prop :=
  if ds then server s = None
  else (server s = Some S_Accepting ∧ wg s = 0 ∧ wg0 = 0) ∨
       (server s = Some S_Returned ∧ exited s = true).

Definition main_inv (dc ds : bool) (wg0 : nat) (s : Sys) : Prop :=
  match main s with
  | M_Start =>
    qn s = NewQuicMesh dc ds ∧ server s = None ∧ wg s = wg0 ∧ dials s = [] ∧ fwd s = None
  | M_Setup =>
    server s = None ∧ wg s = wg0 ∧ dials s = [] ∧ fwd s = None
  | M_Wait =>
    ds = false ∧ dials s = [] ∧ fwd s = None ∧ srv_waited wg0 s
  | M_Range ps =>
    dc = false ∧ (∃ done, peers (qc (qn s)) = done ++ ps ∧ d_peer <$> dials s = done) ∧
    fwd s = None ∧ srv_past ds wg0 s
  | M_Fwd =>
    d_peer <$> dials s = (if dc then [] else peers (qc (qn s))) ∧
    fwd s = None ∧ srv_past ds wg0 s
  | M_Returned None =>
    d_peer <$> dials s = (if dc then [] else peers (qc (qn s))) ∧
    is_Some (fwd s) ∧ srv_past ds wg0 s
  | M_Returned (Some _) =>
    server s = None ∧ dials s = [] ∧ fwd s = None
  end.

Record Inv (w : World) (dc ds : bool) (wg0 : nat) (s : Sys) : Prop := {
  inv_dc : disableClient (qn s) = dc;
  inv_ds : disableServer (qn s) = ds;
  inv_nat : symmetricNAT (qn s) = false ∧ portBinding (qn s) = "";
  inv_tasks :
    Forall (λ t, task_inv w t ∧ (d_pc t = D_Failed → exited s = true)) (dials s);
  inv_clients : ∀ key c, clients (qn s) !! key = Some c →
    ∃ p, p ∈ peers (qc (qn s)) ∧ canonical p = Some key ∧
         cl_endpoint c = endpoint p ∧ is_Some (cl_conn c);
  inv_main : main_inv dc ds wg0 s;
  inv_fwd : ∀ f, fwd s = Some f → ∃ reads, f_packet f = buffer_after reads
}.

(** ** A small network to run the machine on

    The two peers of the routing scenario, and a third one behind the host of
    the first. *)

Module Sample.

(** Host and port of an address without brackets: split at the last
    colon. *)
Fixpoint split_rev (acc : string) (s : string) : option (string * string) :=
  match s with
  | EmptyString => None
  | String a s' =>
    if Ascii.eqb a ":"%char
    then Some (String.rev s', acc)
    else split_rev (String a acc) s'
  end.

Definition splitHostPort (hostport : string) : error + string * string :=
  match split_rev "" (String.rev hostport) with
  | Some hp => inr hp
  | None => inl "missing port in address"
  end.

Definition P1 : Peer := {| endpoint := "10.0.0.2:5000"; allowedIPs := ["10.1.0.2"] |}.
Definition P2 : Peer := {| endpoint := "10.0.0.3:5000"; allowedIPs := ["10.1.0.3"] |}.
Definition P3 : Peer := {| endpoint := "10.0.0.2:5001"; allowedIPs := ["10.1.0.4"] |}.

Definition conf (ps : list Peer) : QuicConf :=
  {| nodeInterface := {| localNodeIP := "192.168.1.10"; localEndpoint := "10.1.0.1";
                         listenPort := 4242 |};
     peers := ps |}.

(** A world in which everything works; [sym] is the answer of the NAT
    classification. *)
Definition world (ps : list Peer) (sym : bool) : World :=
  {| readQuicConf := inr (conf ps);
     water_New := inr "tun0";
     ip_addr_add := λ _ _, None;
     ip_link_up := λ _, None;
     IsSymmetricNAT := λ _, (sym, None);
     GetPortBinding := λ _, ("203.0.113.7:4242", None);
     SplitHostPort := splitHostPort |}.

Definition byte_of (n : N) : byte := default Byte.x00 (Byte.of_N n).

(** An IPv4 packet of [len] bytes whose destination field is [dst]. *)
Definition ipv4 (dst : list N) (len : nat) : list byte :=
  take len (replicate 16 Byte.x45 ++ (byte_of <$> dst) ++ replicate (len - 20) Byte.xff).

(** Both peers dial at once; the second needs three attempts. *)
Definition up : list Choice :=
  [ChMain; ChMain; ChServer (SrvListen None); ChMain; ChMain; ChMain; ChMain; ChMain;
   ChDial 0 (DialOk 1); ChDial 0 (DialOk 1); ChDial 0 (DialOk 1);
   ChDial 1 (DialErr "timeout"); ChDial 1 (DialErr "timeout"); ChDial 1 (DialErr "timeout");
   ChDial 1 (DialOk 2); ChDial 1 (DialOk 2)].

(** The state [cs] leads to from a fresh process. *)
Definition after (w : World) (dc ds : bool) (cs : list Choice) : Sys :=
  default (boot dc ds 0) (run w (boot dc ds 0) cs).

(** The mesh of the two peers, both connected. *)
Definition w0 : World := world [P1; P2] false.
Definition s0 : Sys := after w0 false false up.
Definition f0 : FwdTask := {| f_packet := new_packet; f_log := [] |}.
Definition c1 : Client :=
  {| cl_endpoint := "10.0.0.2:5000"; cl_conn := Some 1; cl_handler := true |}.
Definition c2 : Client :=
  {| cl_endpoint := "10.0.0.3:5000"; cl_conn := Some 2; cl_handler := true |}.
Definition task (s : Sys) (i : nat) : DialTask := default (go_dial P1) (dials s !! i).

(** The same mesh on a node behind a symmetric NAT, up to the moment the
    listener is ready. *)
Definition w_sym : World := world [P1; P2] true.
Definition listening : list Choice := [ChMain; ChMain; ChServer (SrvListen None)].

(** A node whose STUN binding request fails. *)
Definition w_stun : World :=
  {| readQuicConf := inr (conf [P1; P2]);
     water_New := inr "tun0";
     ip_addr_add := λ _ _, None;
     ip_link_up := λ _, None;
     IsSymmetricNAT := λ _, (false, None);
     GetPortBinding := λ _, ("", Some "i/o timeout");
     SplitHostPort := splitHostPort |}.

(** The first peer is never there: its goroutine starts and fails ten
    dials. *)
Definition unreachable : list Choice :=
  listening ++ [ChMain; ChMain; ChMain] ++ replicate 11 (ChDial 0 (DialErr "timeout")).


(** The second peer has connected to this node before its goroutine looks
    for a connection. *)
Definition inbound : list Choice :=
  listening ++ [ChMain; ChMain; ChMain;
                ChServer (SrvAccept "10.0.0.3" 7); ChDial 1 (DialOk 2)].

(** Two peers behind one host, client side only, both dialled. *)
Definition w_shared : World := world [P1; P3] false.
Definition shared : list Choice :=
  [ChMain; ChMain; ChMain; ChMain;
   ChDial 0 (DialOk 1); ChDial 0 (DialOk 1); ChDial 0 (DialOk 1);
   ChDial 1 (DialOk 2); ChDial 1 (DialOk 2); ChDial 1 (DialOk 2)].

End Sample.

(** ** More to read off a run *)

(** The STUN requests in a log. *)
Definition stuns (l : list Event) : list Event :=
  omap (λ e, match e with EStunNAT _ | EStunBinding _ => Some e | _ => None end) l.

(** The world in which the NAT classification gives the same answer without
    an error. *)
Definition quiet (w : World) : World :=
  {| readQuicConf := readQuicConf w;
     water_New := water_New w;
     ip_addr_add := ip_addr_add w;
     ip_link_up := ip_link_up w;
     IsSymmetricNAT := λ port, ((IsSymmetricNAT w port).1, None);
     GetPortBinding := GetPortBinding w;
     SplitHostPort := SplitHostPort w |}.

(** A peer a dial can be made for: it has a canonical address and its
    endpoint splits into host and port. *)
Definition dialable (w : World) (p : Peer) : Prop :=
  is_Some (canonical p) ∧ ∃ host port, SplitHostPort w (endpoint p) = inr (host, port).

(** Where a packet goes by its own header: the client under the address in
    its bytes 16 to 20, if it has that many bytes and there is one, and the
    bytes that fit the buffer. *)
Definition route (m : gmap string Client) (data : list byte) : option (Client * list byte) :=
  match slice data 16 20 with
  | Some ip =>
    match m !! IP_String ip with
    | Some c => Some (c, take 1500 data)
    | None => None
    end
  | None => None
  end.

(** The forwarding loop alone on the schedule: one turn for each packet,
    with the result of the send that may follow. *)
Definition reads (ps : list (list byte * option error)) : list Choice :=
  (λ p, ChFwd (ReadOk p.1) p.2) <$> ps.

(** The transitions a schedule gives to the dial goroutine [i]. *)
Definition dial_turns (i : nat) (cs : list Choice) : nat :=
  length (omap (λ c, match c with
                     | ChDial j _ => if decide (j = i) then Some j else None
                     | _ => None
                     end) cs).

(** The transitions a dial goroutine has left at most: its first statement,
    the attempts of the retry loop and the registration. *)
Definition turns_left (t : DialTask) : nat :=
  match d_pc t with
  | D_Start => 2 + retries
  | D_Retry _ _ failed => 1 + retries - failed
  | D_Register _ => 1
  | D_Done | D_Failed => 0
  end.

(** What one transition adds to the sends of the forwarding loop. *)
Definition sent_by (q : QuicMesh) (packet : list byte) (c : Choice) : list (Client * list byte) :=
  match c with
  | ChFwd (ReadOk data) _ =>
    match dst_of (Read packet data).2 with
    | Some dst =>
      match clients q !! dst with
      | Some cl => [(cl, take 1500 data)]
      | None => []
      end
    | None => []
    end
  | _ => []
  end.

(** ** The first version: quicnet

    The file of the package [quicnet] is the predecessor of [quicmesh.go]:
    one peer, no tables.  Its client goroutine dials in a loop of its own and
    then forwards every packet of the device to that one peer. *)

Module QuicNet.

Record QuicNet := {
  localIp : string;
  localTunnelPort : Z;
  peerIp : string;
  localIf : option string
}.

Definition NewQuicNet (localIp peerIp : string) (qnetTunnelPort : Z) : QuicNet :=
  {| localIp := localIp; localTunnelPort := qnetTunnelPort; peerIp := peerIp;
     localIf := None |}.

Definition createTunIface (w : World) (qn : QuicNet) : (error + QuicNet) * list Event :=
  match water_New w with
  | inl e => (inl (Errorf "Failed to create TUN interface" e), [])
  | inr name =>
    let l1 := [ELog Info "TUN interface created: %s"] in
    match ip_addr_add w (localIp qn +:+ "/24") name with
    | Some e => (inl (Errorf "Failed to assign IP address to TUN interface" e), l1)
    | None =>
      let l2 := l1 ++ [ELog Info "IP address assigned to TUN interface"] in
      match ip_link_up w name with
      | Some e => (inl (Errorf "Failed to change the state to UP for the TUN interface" e), l2)
      | None =>
        (inr {| localIp := localIp qn; localTunnelPort := localTunnelPort qn;
                peerIp := peerIp qn; localIf := Some name |},
         l2 ++ [ELog Info "TUN interface %s is up and running"])
      end
    end
  end.

(** [fmt.Sprintf("%s:%d", qn.peerIp, qn.localTunnelPort)]. *)
Definition remotePeerPortStr (qn : QuicNet) : string :=
  peerIp qn +:+ ":" +:+ pretty (localTunnelPort qn).

(** The dial loop.  [dial k] is what the call of [Dial] after [k] failures
    returns; [retries] is the counter of the loop.  The loop leaves with the
    connection, or without one when the counter has passed five. *)
Fixpoint dial_loop (fuel : nat) (ep : string) (dial : nat → DialResult) (retries : nat)
  : option (option Connection * list Event) :=
  match fuel with
  | 0 => None
  | S fuel' =>
    match dial retries with
    | DialOk conn => Some (Some conn, [EDial ep true])
    | DialErr e =>
      let l := [EDial ep false; ELog Warn "Failed to dial: %v"; ELog Warn "Retrying to dial %s"] in
      let retries := retries + 1 in
      if decide (5 < retries) then Some (None, l)
      else
        match dial_loop fuel' ep dial retries with
        | Some (r, l') => Some (r, l ++ ESleep (10 * Second)%Z :: l')
        | None => None
        end
    end
  end.

(** What the forwarding loop writes: lines of the logger and sends, and the
    line [fmt.Printf] puts on the standard output when a send fails. *)
Inductive Out := Ev (e : Event) | Printf (format : string).

Definition events (l : list Out) : list Event :=
  omap (λ o, match o with Ev e => Some e | Printf _ => None end) l.

(** The forwarding loop over the reads [rs], each with the result of the
    send that follows it.  The loop ends with the first read that fails; the
    flag tells whether it did. *)
Fixpoint fwd_loop (c : Client) (packet : list byte) (rs : list (ReadResult * option error))
  : list Out * bool :=
  match rs with
  | [] => ([], false)
  | (ReadErr e, _) :: _ =>
    ([Ev (ELog Fatal "Failed to read packet from TUN interface: %v")], true)
  | (ReadOk data, sent) :: rs' =>
    let '(n, packet) := Read packet data in
    let l := [Ev (ELog Info "Received packet: %v");
              Ev (ESend c packet (bool_decide (sent = None)))] ++
             match sent with
             | Some e => [Printf "failed to send client message: %v"]
             | None => []
             end in
    let '(l', gone) := fwd_loop c packet rs' in
    (l ++ l', gone)
  end.

(** The second goroutine of [setupTunnel]: the dial loop, then the
    forwarding loop on the client as the dial loop left it. *)
Definition client_goroutine (fuel : nat) (qn : QuicNet) (dial : nat → DialResult)
    (rs : list (ReadResult * option error)) : option (Client * list Out * bool) :=
  let ep := remotePeerPortStr qn in
  match dial_loop fuel ep dial 0 with
  | None => None
  | Some (r, l) =>
    let c := {| cl_endpoint := ep; cl_conn := r; cl_handler := false |} in
    let '(l', gone) := fwd_loop c new_packet rs in
    Some (c, (Ev <$> l) ++ l', gone)
  end.

(** [Start]: the error of the device, or the two goroutines started. *)
Definition Start (w : World) (qn : QuicNet) : (error + QuicNet) * list Event :=
  let l0 := [ELog Info "QuicNet Starting";
             ELog Info "Trying to create tunnel interface on local host"] in
  match createTunIface w qn with
  | (inl e, l) => (inl e, l0 ++ l)
  | (inr qn', l) => (inr qn', l0 ++ l)
  end.

(** [k] failed dials, each followed by a wait of [d]. *)
Fixpoint waits (ep : string) (d : Duration) (k : nat) : list Event :=
  match k with
  | 0 => []
  | S k' => [EDial ep false; ESleep d] ++ waits ep d k'
  end.

End QuicNet.

(** ** More runs of the sample mesh *)

Module Runs.
Import Sample.

(** The forwarding loop of a state, once there is one. *)
Definition fwd_of (s : Sys) : FwdTask := default f0 (fwd s).

(** The client side disabled: [Start] goes from the wait to the forwarding
    loop, which reads a packet for the second peer. *)
Definition client_off : list Choice :=
  listening ++ [ChMain; ChMain; ChFwd (ReadOk (ipv4 [10; 1; 0; 3]%N 28)) None].

(** A peer without allowed addresses, first in the configuration. *)
Definition P_bad : Peer := {| endpoint := "10.0.0.9:5000"; allowedIPs := [] |}.
Definition w_bad : World := world [P_bad; P1] false.
Definition bad_run : list Choice :=
  listening ++ [ChMain; ChMain; ChMain; ChDial 0 (DialOk 1)].

(** Three packets: for the second peer, for nobody, and for the first peer
    with a send that fails. *)
Definition three_packets : list (list byte * option error) :=
  [(ipv4 [10; 1; 0; 3]%N 28, None);
   (ipv4 [10; 1; 0; 9]%N 40, None);
   (ipv4 [10; 1; 0; 2]%N 20, Some "connection closed")].

(** A peer that refuses two dials and accepts the third. *)
Definition flaky (k : nat) : DialResult :=
  if decide (k < 2) then DialErr "connection refused" else DialOk 4.

Definition qn0 : QuicNet.QuicNet := QuicNet.NewQuicNet "10.1.0.1" "10.0.0.2" 4242.

End Runs.

(** * Proofs *)

(** ** The buffer *)

Lemma Read_length packet data : length (Read packet data).2 = length packet.
Proof.
  unfold Read; simpl. rewrite length_app, length_take, length_drop. lia.
Qed.

Lemma Read_n packet data : (Read packet data).1 = min (length data) (length packet).
Proof. reflexivity. Qed.

(** [packet[:n]] after a read is the front of what the device handed over. *)
Lemma Read_front packet data :
  take (Read packet data).1 (Read packet data).2 = take (length packet) data.
Proof.
  unfold Read; simpl.
  rewrite take_app_length' by (rewrite length_take; lia).
  destruct (decide (length data ≤ length packet)).
  - rewrite Nat.min_l by done. by rewrite !take_ge by lia.
  - by rewrite Nat.min_r by lia.
Qed.

(** Behind the [n] bytes of a read the buffer is what it was. *)
Lemma Read_residue packet data j :
  (Read packet data).1 ≤ j → (Read packet data).2 !! j = packet !! j.
Proof.
  unfold Read; simpl. intros Hj.
  rewrite lookup_app_r by (rewrite length_take; lia).
  rewrite lookup_drop, length_take. f_equal. lia.
Qed.

Lemma Read_fresh packet data j :
  j < (Read packet data).1 → (Read packet data).2 !! j = data !! j.
Proof.
  unfold Read; simpl. intros Hj.
  rewrite lookup_app_l by (rewrite length_take; lia).
  apply lookup_take_lt. lia.
Qed.

Lemma buffer_after_snoc reads data :
  buffer_after (reads ++ [data]) = (Read (buffer_after reads) data).2.
Proof. unfold buffer_after. by rewrite foldl_snoc. Qed.

Lemma buffer_after_length reads : length (buffer_after reads) = 1500.
Proof.
  induction reads as [|data reads IH] using rev_ind.
  - change (length (replicate 1500 Byte.x00) = 1500). apply length_replicate.
  - by rewrite buffer_after_snoc, Read_length.
Qed.

(** Every byte of the buffer is the zero of [make] or the byte some earlier
    packet had at that offset. *)
Lemma buffer_after_origin reads j b :
  buffer_after reads !! j = Some b →
  b = Byte.x00 ∨ ∃ data, data ∈ reads ∧ data !! j = Some b.
Proof.
  induction reads as [|data reads IH] using rev_ind; intros Hb.
  - left. change (replicate 1500 Byte.x00 !! j = Some b) in Hb.
    apply lookup_replicate in Hb. tauto.
  - rewrite buffer_after_snoc in Hb.
    destruct (decide (j < (Read (buffer_after reads) data).1)) as [Hlt|Hge].
    + rewrite Read_fresh in Hb by done. right. exists data. split; [|done].
      apply elem_of_app. right. by apply list_elem_of_singleton.
    + rewrite Read_residue in Hb by lia.
      destruct (IH Hb) as [->|(d & Hd & Hj)]; [by left|].
      right. exists d. split; [|done]. apply elem_of_app. by left.
Qed.

Lemma slice_Some b lo hi :
  lo ≤ hi → hi ≤ length b → slice b lo hi = Some (take (hi - lo) (drop lo b)).
Proof. intros. unfold slice. by rewrite decide_True. Qed.

Lemma slice_length b lo hi ip : slice b lo hi = Some ip → length ip = hi - lo.
Proof.
  unfold slice. case_decide as H; [|done]. intros [= <-].
  rewrite length_take, length_drop. lia.
Qed.

Lemma slice_lookup b lo hi ip j :
  slice b lo hi = Some ip → j < hi - lo → ip !! j = b !! (lo + j).
Proof.
  unfold slice. case_decide as H; [|done]. intros [= <-] Hj.
  by rewrite lookup_take_lt, lookup_drop.
Qed.

(** ** Logs *)

Lemma attempts_app l1 l2 : attempts (l1 ++ l2) = attempts l1 ++ attempts l2.
Proof. apply omap_app. Qed.

Lemma sends_app l1 l2 : sends (l1 ++ l2) = sends l1 ++ sends l2.
Proof. apply omap_app. Qed.

Lemma dial_count_app l1 l2 : dial_count (l1 ++ l2) = dial_count l1 + dial_count l2.
Proof. unfold dial_count. by rewrite omap_app, length_app. Qed.

Lemma dial_count_attempts l : dial_count (attempts l) = dial_count l.
Proof.
  induction l as [|e l IH]; [done|].
  destruct e; simpl; unfold dial_count in *; simpl; auto.
Qed.

Lemma dial_count_backoffs ep k : dial_count (backoffs ep k) = k.
Proof.
  induction k as [|k IH]; [done|].
  simpl. rewrite dial_count_app, IH. unfold dial_count; simpl. lia.
Qed.

(** ** Start *)

Lemma createTunIface_keeps w q q' l :
  createTunIface w q = (inr q', l) →
  qc q' = qc q ∧ connections q' = connections q ∧ clients q' = clients q ∧
  disableClient q' = disableClient q ∧ disableServer q' = disableServer q ∧
  symmetricNAT q' = symmetricNAT q ∧ portBinding q' = portBinding q ∧
  is_Some (localIf q').
Proof.
  unfold createTunIface. intros H.
  destruct (water_New w); [done|].
  destruct (ip_addr_add w _ _); [done|].
  destruct (ip_link_up w _); [done|].
  injection H as <-. simpl. eauto 10.
Qed.

Lemma Start_entry_keeps w q q' l :
  Start_entry w q = (StartSetup q', l) →
  readQuicConf w = inr (qc q') ∧
  connections q' = connections q ∧ clients q' = clients q ∧
  disableClient q' = disableClient q ∧ disableServer q' = disableServer q ∧
  symmetricNAT q' = symmetricNAT q ∧ portBinding q' = portBinding q ∧
  is_Some (localIf q').
Proof.
  unfold Start_entry. intros H.
  destruct (readQuicConf w) as [|conf]; [done|].
  destruct (createTunIface w _) as [[e|q2] l2] eqn:Htun; [done|].
  apply createTunIface_keeps in Htun as (Hqc & ? & ? & ? & ? & ? & ? & ?). simpl in *.
  assert (q' = q2) as ->.
  { destruct (disableServer q2); [congruence|].
    destruct (findPortBinding w q2) as [[?|] ?]; congruence. }
  rewrite Hqc. eauto 10.
Qed.
(** ** A dial goroutine *)

Lemma RetryOperation_next_Some wait n failed d :
  RetryOperation_next wait n failed = Some d ↔ failed < n ∧ d = wait.
Proof.
  unfold RetryOperation_next. case_decide; split.
  - by intros [= <-].
  - by intros [_ ->].
  - done.
  - intros [? _]. lia.
Qed.

Lemma RetryOperation_next_None wait n failed :
  RetryOperation_next wait n failed = None ↔ n ≤ failed.
Proof. unfold RetryOperation_next. case_decide; split; intros; try done; lia. Qed.

(** A transition of a dial goroutine leaves everything in [qn] but the
    clients alone, and writes the clients only at its last statement. *)
Lemma dial_step_qn w q t r q' pc l gone :
  dial_step w q t r = Some (q', pc, l, gone) →
  qc q' = qc q ∧ localIf q' = localIf q ∧ connections q' = connections q ∧
  disableClient q' = disableClient q ∧ disableServer q' = disableServer q ∧
  symmetricNAT q' = symmetricNAT q ∧ portBinding q' = portBinding q ∧
  (clients q' = clients q ∨
   ∃ key c, d_pc t = D_Register c ∧ canonical (d_peer t) = Some key ∧ pc = D_Done ∧
            clients q' = <[key := c]> (clients q)).
Proof.
  unfold dial_step. intros H.
  destruct (d_pc t) as [|c host k|c| |] eqn:Hpc.
  - destruct (canonical (d_peer t)) as [key|]; [|injection H as <- _ _ _; auto 10].
    destruct (clients q !! key); [injection H as <- _ _ _; auto 10|].
    destruct (SplitHostPort w _) as [|[host port]]; injection H as <- _ _ _; auto 10.
  - destruct (connections q !! host); [injection H as <- _ _ _; auto 10|].
    destruct r; [injection H as <- _ _ _; auto 10|].
    destruct (RetryOperation_next _ _ _); injection H as <- _ _ _; auto 10.
  - destruct (canonical (d_peer t)) as [key|] eqn:Hk; [|done].
    injection H as <- <- <- <-. simpl. repeat split; try done.
    right. eauto 10.
  - done.
  - done.
Qed.

Lemma dial_step_inv w q t r q' pc l gone :
  task_inv w t →
  dial_step w q t r = Some (q', pc, l, gone) →
  task_inv w (retask t pc l) ∧ (pc = D_Failed → gone = true) ∧ (gone = true → pc = D_Failed).
Proof.
  unfold dial_step, task_inv. intros Ht H.
  destruct (d_pc t) as [|c host k|c| |] eqn:Hpc; simpl.
  - destruct (canonical (d_peer t)) as [key|] eqn:Hk.
    2:{ injection H as <- <- <- <-. rewrite attempts_app, Ht. simpl. auto. }
    destruct (clients q !! key).
    { injection H as <- <- <- <-. rewrite attempts_app, Ht. simpl.
      split; [|done]. exists 0. split; [unfold retries; lia|]. by left. }
    destruct (SplitHostPort w _) as [|[host port]] eqn:Hs.
    { injection H as <- <- <- <-. rewrite attempts_app, Ht. simpl. auto. }
    injection H as <- <- <- <-. rewrite attempts_app, Ht. simpl.
    split; [|done]. repeat split; eauto. unfold retries; lia.
  - destruct Ht as (Hep & Hhost & Hkey & Hlog & Hk).
    destruct (connections q !! host) as [conn|].
    { injection H as <- <- <- <-. rewrite attempts_app, Hlog, app_nil_r. simpl.
      split; [|done]. subst c. repeat split; eauto. }
    destruct r as [conn|e].
    { injection H as <- <- <- <-. rewrite attempts_app, Hlog. simpl.
      split; [|done]. subst c. repeat split; eauto. }
    destruct (RetryOperation_next _ _ _) as [d|] eqn:Hn.
    + apply RetryOperation_next_Some in Hn as [Hlt ->].
      injection H as <- <- <- <-. rewrite attempts_app, Hlog. simpl.
      split; [|done]. repeat split; eauto.
    + apply RetryOperation_next_None in Hn.
      injection H as <- <- <- <-. rewrite attempts_app, Hlog. simpl.
      split; [|by split]. right. by assert (k = 9) as -> by (unfold retries in *; lia).
  - destruct Ht as (Hep & Hconn & Hkey & Hlog).
    destruct (canonical (d_peer t)) as [key|]; [|done].
    injection H as <- <- <- <-. by rewrite app_nil_r.
  - done.
  - done.
Qed.
(** ** The invariant *)

Lemma Inv_boot w dc ds wg0 : Inv w dc ds wg0 (boot dc ds wg0).
Proof. split; simpl; done. Qed.

Lemma main_step_inv w dc ds wg0 s s' :
  Inv w dc ds wg0 s → main_step w s = Some s' → Inv w dc ds wg0 s'.
Proof.
  intros [Hdc Hds Hnat Ht Hc Hm Hf] H.
  destruct s as [q n ex m ml srv sl dl fw cl].
  unfold main_step in H. unfold main_inv in Hm. simpl in *. subst dc ds.
  destruct m as [| | |ps| |r].
  - destruct Hm as (Hq & -> & -> & -> & ->).
    destruct (Start_entry w _) as [[e| |q'] l] eqn:HS; injection H as <-.
    + split; simpl; done.
    + split; simpl; done.
    + apply Start_entry_keeps in HS as (_ & Hco & Hcl & Hdc' & Hds' & Hsym & Hpb & _).
      split; simpl; try done.
      { by rewrite Hsym, Hpb, Hq. }
      intros key c. rewrite Hcl, Hq. simpl. by rewrite lookup_empty.
  - destruct Hm as (-> & -> & -> & ->).
    destruct (disableServer q) eqn:Hsrv; injection H as <-.
    + split; simpl; try done.
      unfold main_inv, after_server, srv_past; simpl.
      destruct (disableClient q); simpl; repeat split; try done. by exists [].
    + split; simpl; try done.
      unfold main_inv; simpl. repeat split; try done. by left.
  - destruct Hm as (Hsrv0 & -> & -> & Hsrv).
    case_decide as Hz; [|done]. injection H as <-. subst n.
    split; simpl; try done.
    assert (srv_past (disableServer q) wg0
      {| qn := q; wg := 0; exited := ex; main := after_server q; main_log := ml ++ [];
         server := srv; server_log := sl; dials := []; fwd := None; caller_log := cl |}) as Hp.
    { unfold srv_past; simpl. rewrite Hsrv0.
      destruct Hsrv as [[? ?]|[[? ?]|[? ?]]]; simpl in *; auto; lia. }
    unfold main_inv, after_server; simpl.
    destruct (disableClient q); simpl; repeat split; try done. by exists [].
  - destruct Hm as (Hcl & (done & Hps & Hdl) & -> & Hsrv).
    destruct ps as [|peer ps]; injection H as <-.
    + split; simpl; try done.
      unfold main_inv; simpl. rewrite app_nil_r in Hps. rewrite Hcl.
      repeat split; try done. congruence.
    + split; simpl; try done.
      * apply Forall_app. split; [done|]. repeat constructor; done.
      * unfold main_inv; simpl. repeat split; try done.
        exists (done ++ [peer]). rewrite <- app_assoc. split; [done|].
        by rewrite fmap_app, Hdl.
  - destruct Hm as (Hdl & -> & Hsrv).
    injection H as <-. split; simpl; try done.
    intros f [= <-]. by exists [].
  - done.
Qed.

Lemma tasks_exit w (ex : bool) dl :
  Forall (λ t, task_inv w t ∧ (d_pc t = D_Failed → ex = true)) dl →
  Forall (λ t, task_inv w t ∧ (d_pc t = D_Failed → true = true)) dl.
Proof. intros H. eapply Forall_impl; [exact H|]. by intros t [? _]. Qed.

Lemma server_step_inv w dc ds wg0 s a s' :
  Inv w dc ds wg0 s → server_step s a = Some s' → Inv w dc ds wg0 s'.
Proof.
  intros [Hdc Hds Hnat Ht Hc Hm Hf] H.
  destruct s as [q n ex m ml srv sl dl fw cl].
  unfold server_step in H. unfold main_inv in Hm. simpl in *.
  destruct srv as [[| |]|]; [| | |by destruct a].
  - (* before the listener *)
    assert (m = M_Wait ∧ n = S wg0) as [-> ->].
    { unfold srv_past, srv_waited in Hm. simpl in Hm.
      destruct m as [| | |ps| |[e|]]; destruct ds; intuition congruence. }
    destruct Hm as (-> & -> & -> & _).
    destruct a as [[e|]| |]; [| |done|done]; injection H as <-.
    + split; simpl; try done. unfold main_inv, srv_waited; simpl. auto 10.
    + split; simpl; try done. unfold main_inv, srv_waited; simpl. auto 10.
  - (* in the accept loop *)
    destruct a as [|host conn|r]; [done| |]; injection H as <-.
    + split; simpl; try done.
      unfold main_inv, srv_past, srv_waited in *; simpl in *.
      destruct m as [| | |ps| |[e|]]; destruct ds; intuition congruence.
    + split; simpl; try done.
      * by eapply tasks_exit.
      * unfold main_inv, srv_past, srv_waited in *; simpl in *.
        destruct m as [| | |ps| |[e|]]; destruct ds; intuition congruence.
  - by destruct a.
Qed.

Lemma dials_step_inv w dc ds wg0 s i r s' :
  Inv w dc ds wg0 s → dials_step w s i r = Some s' → Inv w dc ds wg0 s'.
Proof.
  intros [Hdc Hds Hnat Ht Hc Hm Hf] H.
  destruct s as [q n ex m ml srv sl dl fw cl].
  unfold dials_step in H. simpl in *.
  destruct (dl !! i) as [t|] eqn:Hi; [|done].
  destruct (dial_step w q t r) as [[[[q' pc] l] gone]|] eqn:Hstep; [|done].
  injection H as <-.
  pose proof (Forall_lookup_1 _ _ _ _ Ht Hi) as [Hti Hfail].
  destruct (dial_step_inv _ _ _ _ _ _ _ _ Hti Hstep) as (Hti' & Hgo & Hgone).
  destruct (dial_step_qn _ _ _ _ _ _ _ _ Hstep)
    as (Hqc & Hif & Hco & Hdc' & Hds' & Hsym & Hpb & Hcl).
  assert (Hpeers : d_peer <$> <[i := retask t pc l]> dl = d_peer <$> dl).
  { rewrite list_fmap_insert. simpl. apply list_insert_id. by rewrite list_lookup_fmap, Hi. }
  assert (Hin : d_peer t ∈ peers (qc q)).
  { assert (d_peer t ∈ d_peer <$> dl) as Hd.
    { apply list_elem_of_fmap. exists t. split; [done|]. by eapply list_elem_of_lookup_2. }
    unfold main_inv in Hm; simpl in Hm.
    destruct m as [| | |ps| |[e|]].
    - destruct Hm as (_ & _ & _ & -> & _). by apply elem_of_nil in Hd.
    - destruct Hm as (_ & _ & -> & _). by apply elem_of_nil in Hd.
    - destruct Hm as (_ & -> & _). by apply elem_of_nil in Hd.
    - destruct Hm as (_ & (done & -> & <-) & _). apply elem_of_app. by left.
    - destruct Hm as (Hm & _). rewrite Hm in Hd. destruct dc; [by apply elem_of_nil in Hd|done].
    - destruct Hm as (_ & -> & _). by apply elem_of_nil in Hd.
    - destruct Hm as (Hm & _). rewrite Hm in Hd. destruct dc; [by apply elem_of_nil in Hd|done]. }
  assert (Hcl' : ∀ key c, clients q' !! key = Some c →
    ∃ p, p ∈ peers (qc q') ∧ canonical p = Some key ∧
         cl_endpoint c = endpoint p ∧ is_Some (cl_conn c)).
  { intros key c. rewrite Hqc.
    destruct Hcl as [->|(key' & c' & Hpc & Hkey & _ & ->)]; [apply Hc|].
    destruct (decide (key' = key)) as [->|Hne].
    - rewrite lookup_insert_eq. intros [= <-].
      unfold task_inv in Hti. rewrite Hpc in Hti. destruct Hti as (? & ? & _).
      exists (d_peer t). done.
    - rewrite lookup_insert_ne by done. apply Hc. }
  assert (Hm' : ∀ ex',
    (ex = true → ex' = true) →
    main_inv dc ds wg0
    {| qn := q'; wg := n; exited := ex'; main := m; main_log := ml; server := srv;
       server_log := sl; dials := <[i := retask t pc l]> dl; fwd := fw; caller_log := cl |}).
  { intros ex' Hex. unfold main_inv, srv_past, srv_waited in *; simpl in *.
    rewrite Hpeers, Hqc.
    destruct m as [| | |ps| |[e|]].
    - destruct Hm as (_ & _ & _ & -> & _). done.
    - destruct Hm as (_ & _ & -> & _). done.
    - destruct Hm as (_ & -> & _). done.
    - destruct ds; intuition auto.
    - destruct ds; intuition auto.
    - destruct Hm as (_ & -> & _). done.
    - destruct ds; intuition auto. }
  assert (Hall : ∀ ex', (ex = true → ex' = true) → (gone = true → ex' = true) →
    Inv w dc ds wg0
    {| qn := q'; wg := n; exited := ex'; main := m; main_log := ml; server := srv;
       server_log := sl; dials := <[i := retask t pc l]> dl; fwd := fw; caller_log := cl |}).
  { intros ex' Hex Hgo'. split; simpl; try done; try congruence.
    - apply Forall_insert.
      + eapply Forall_impl; [exact Ht|]. simpl. intros t0 [? ?]. auto.
      + split; [done|]. simpl. auto.
    - by apply Hm'. }
  destruct gone; apply Hall; auto; done.
Qed.

Lemma fwd_step_packet q packet r sent :
  (fwd_step q packet r sent).1.1 = match r with
                                   | ReadOk data => (Read packet data).2
                                   | ReadErr _ => packet
                                   end.
Proof.
  unfold fwd_step. destruct r as [data|e]; [|done].
  destruct (Read packet data) as [n packet'] eqn:HR. simpl.
  destruct (slice packet' 16 20); [|done].
  by destruct (clients q !! _).
Qed.

Lemma fwd_task_step_inv w dc ds wg0 s r sent s' :
  Inv w dc ds wg0 s → fwd_task_step s r sent = Some s' → Inv w dc ds wg0 s'.
Proof.
  intros [Hdc Hds Hnat Ht Hc Hm Hf] H.
  destruct s as [q n ex m ml srv sl dl fw cl].
  unfold fwd_task_step in H. simpl in *.
  destruct fw as [f|]; [|done].
  pose proof (fwd_step_packet q (f_packet f) r sent) as Hp.
  destruct (fwd_step q (f_packet f) r sent) as [[packet l] gone]. simpl in Hp.
  injection H as <-.
  assert (Hf' : ∃ reads, packet = buffer_after reads).
  { destruct (Hf f eq_refl) as [reads Hr]. destruct r as [data|e].
    - exists (reads ++ [data]). by rewrite buffer_after_snoc, <- Hr.
    - exists reads. congruence. }
  assert (Hm' : ∀ ex', (ex = true → ex' = true) →
    main_inv dc ds wg0
      {| qn := q; wg := n; exited := ex'; main := m; main_log := ml; server := srv;
         server_log := sl; dials := dl; caller_log := cl;
         fwd := Some {| f_packet := packet; f_log := f_log f ++ l |} |}).
  { intros ex' Hex. unfold main_inv, srv_past in *; simpl in *.
    destruct m as [| | |ps| |[e|]]; try (intuition congruence).
    destruct ds; intuition eauto. }
  assert (Hall : ∀ ex', (ex = true → ex' = true) →
    Inv w dc ds wg0
      {| qn := q; wg := n; exited := ex'; main := m; main_log := ml; server := srv;
         server_log := sl; dials := dl; caller_log := cl;
         fwd := Some {| f_packet := packet; f_log := f_log f ++ l |} |}).
  { intros ex' Hex. split; simpl; try done.
    - eapply Forall_impl; [exact Ht|]. simpl. intros t0 [? ?]. auto.
    - by apply Hm'.
    - by intros f' [= <-]. }
  destruct gone; apply Hall; auto.
Qed.

Lemma Stop_inv w dc ds wg0 s : Inv w dc ds wg0 s → Inv w dc ds wg0 (Stop s).
Proof.
  intros [Hdc Hds Hnat Ht Hc Hm Hf]. by split.
Qed.

Lemma step_inv w dc ds wg0 s c s' :
  Inv w dc ds wg0 s → step w s c = Some s' → Inv w dc ds wg0 s'.
Proof.
  unfold step. intros HI H. destruct (exited s); [done|].
  destruct c as [|a|i r|r sent|].
  - by eapply main_step_inv.
  - by eapply server_step_inv.
  - by eapply dials_step_inv.
  - by eapply fwd_task_step_inv.
  - injection H as <-. by apply Stop_inv.
Qed.

Lemma run_inv w dc ds wg0 cs : ∀ s s',
  Inv w dc ds wg0 s → run w s cs = Some s' → Inv w dc ds wg0 s'.
Proof.
  induction cs as [|c cs IH]; intros s s' HI H; simpl in H.
  - by injection H as <-.
  - destruct (step w s c) as [s1|] eqn:Hs; [|done].
    eapply IH; [|done]. by eapply step_inv.
Qed.

Lemma reachable_inv w dc ds wg0 s : reachable w dc ds wg0 s → Inv w dc ds wg0 s.
Proof. intros [cs H]. eapply run_inv; [apply Inv_boot|done]. Qed.

Lemma run_app w cs1 cs2 s :
  run w s (cs1 ++ cs2) = s1 ← run w s cs1; run w s1 cs2.
Proof.
  revert s. induction cs1 as [|c cs1 IH]; intros s; simpl; [done|].
  destruct (step w s c); [apply IH|done].
Qed.

Lemma reachable_step w dc ds wg0 s c s' :
  reachable w dc ds wg0 s → step w s c = Some s' → reachable w dc ds wg0 s'.
Proof.
  intros [cs H] Hs. exists (cs ++ [c]). rewrite run_app, H. simpl. by rewrite Hs.
Qed.

(** Nothing runs once the process is gone. *)
Lemma exited_stuck w s c : exited s = true → step w s c = None.
Proof. unfold step. by intros ->. Qed.

(** ** The forwarding loop *)

(** With a buffer of twenty bytes or more a turn of the loop that read a
    packet does not end the process. *)
Lemma fwd_step_ReadOk q packet data sent :
  20 ≤ length packet →
  ∃ ip, slice (Read packet data).2 16 20 = Some ip ∧ length ip = 4 ∧
        fwd_step q packet (ReadOk data) sent =
        ((Read packet data).2,
         turn_log (clients q !! IP_String ip) (Read packet data).1 (Read packet data).2 sent,
         false).
Proof.
  intros Hlen. unfold fwd_step.
  destruct (Read packet data) as [n packet'] eqn:HR.
  assert (length packet' = length packet) as Hlen'.
  { by rewrite <- (Read_length packet data), HR. }
  simpl. rewrite slice_Some by lia.
  eexists. split; [done|]. split.
  { rewrite length_take, length_drop. lia. }
  by destruct (clients q !! _).
Qed.

Lemma fwd_task_ReadOk w dc ds wg0 s f data sent :
  reachable w dc ds wg0 s → exited s = false → fwd s = Some f →
  ∃ ip, slice (Read (f_packet f) data).2 16 20 = Some ip ∧ length ip = 4 ∧
    step w s (ChFwd (ReadOk data) sent) =
    Some (upd_fwd {| f_packet := (Read (f_packet f) data).2;
                     f_log := f_log f ++ turn_log (clients (qn s) !! IP_String ip)
                                (Read (f_packet f) data).1 (Read (f_packet f) data).2 sent |} s) ∧
    length (f_packet f) = 1500.
Proof.
  intros Hr Hex Hf.
  destruct (inv_fwd _ _ _ _ _ (reachable_inv _ _ _ _ _ Hr) f Hf) as [reads Hb].
  assert (length (f_packet f) = 1500) as Hlen by (rewrite Hb; apply buffer_after_length).
  destruct (fwd_step_ReadOk (qn s) (f_packet f) data sent) as (ip & Hip & Hl & Hs); [lia|].
  exists ip. repeat split; try done.
  unfold step, fwd_task_step. by rewrite Hex, Hf, Hs.
Qed.

Lemma sends_turn_log hit n packet sent :
  sends (turn_log hit n packet sent) =
  match hit with Some c => [(c, take n packet)] | None => [] end.
Proof. destruct hit; [|done]. by destruct sent. Qed.

Lemma panics_turn_log hit n packet sent : panics (turn_log hit n packet sent) = [].
Proof. destruct hit; [|done]. by destruct sent. Qed.

Lemma panics_app l1 l2 : panics (l1 ++ l2) = panics l1 ++ panics l2.
Proof. apply omap_app. Qed.

(** C1. A packet read from the device whose destination field, bytes 16 to
    20 of the buffer, prints as the canonical address under which a client is
    registered: the loop calls [SendBytes] once, on that client, with exactly
    the [n] bytes the read returned, and on no other client.  The client is
    the one made for a configured peer with that canonical address, and holds
    a connection. *)
Theorem C1_forward_to_registered_peer w dc ds wg0 s f data sent key c :
  reachable w dc ds wg0 s → exited s = false → fwd s = Some f →
  dst_of (Read (f_packet f) data).2 = Some key →
  clients (qn s) !! key = Some c →
  ∃ s' f',
    step w s (ChFwd (ReadOk data) sent) = Some s' ∧ fwd s' = Some f' ∧
    sends (f_log f') = sends (f_log f) ++ [(c, take 1500 data)] ∧
    take (Read (f_packet f) data).1 (f_packet f') = take 1500 data ∧
    (Read (f_packet f) data).1 = min (length data) 1500 ∧
    qn s' = qn s ∧ exited s' = false ∧
    ∃ p, p ∈ peers (qc (qn s)) ∧ canonical p = Some key ∧
         cl_endpoint c = endpoint p ∧ is_Some (cl_conn c).
Proof.
  intros Hr Hex Hf Hdst Hc.
  destruct (fwd_task_ReadOk w dc ds wg0 s f data sent Hr Hex Hf) as (ip & Hip & _ & Hs & Hlen).
  unfold dst_of in Hdst. rewrite Hip in Hdst. injection Hdst as Hkey.
  rewrite Hkey, Hc in Hs.
  eexists _, _. split; [exact Hs|]. split; [done|].
  cbn [f_log f_packet upd_fwd qn exited].
  rewrite sends_app, sends_turn_log, Read_front, Hlen.
  repeat split; try done.
  - by rewrite Read_n, Hlen.
  - apply (inv_clients _ _ _ _ _ (reachable_inv _ _ _ _ _ Hr) key c Hc).
Qed.

(** C5. A packet whose destination has no entry in the table of clients:
    nothing is sent and nothing is kept but the buffer itself, the loop logs
    two debug lines, the process lives, and the loop takes whatever the next
    read returns. *)
Theorem C5_unknown_destination_dropped w dc ds wg0 s f data sent dst :
  reachable w dc ds wg0 s → exited s = false → fwd s = Some f →
  dst_of (Read (f_packet f) data).2 = Some dst →
  clients (qn s) !! dst = None →
  ∃ s',
    step w s (ChFwd (ReadOk data) sent) = Some s' ∧
    s' = upd_fwd {| f_packet := (Read (f_packet f) data).2;
                    f_log := f_log f ++
                      [ELog Debug "Received packet from local tun interface: %v for destination %s";
                       ELog Debug "No client connection found for destination IP %s"] |} s ∧
    (∀ f', fwd s' = Some f' → sends (f_log f') = sends (f_log f)) ∧
    exited s' = false ∧
    ∀ r' sent', is_Some (step w s' (ChFwd r' sent')).
Proof.
  intros Hr Hex Hf Hdst Hc.
  destruct (fwd_task_ReadOk w dc ds wg0 s f data sent Hr Hex Hf) as (ip & Hip & _ & Hs & Hlen).
  unfold dst_of in Hdst. rewrite Hip in Hdst. injection Hdst as Hkey.
  rewrite Hkey, Hc in Hs.
  eexists. split; [exact Hs|]. split; [done|]. split; [|split; [done|]].
  - intros f' [= <-]. cbn [f_log]. by rewrite sends_app, app_nil_r.
  - intros r' sent'. unfold step, fwd_task_step. simpl. rewrite Hex.
    by destruct (fwd_step _ _ _ _) as [[? ?] ?].
Qed.

(** C10. The destination is always taken from offsets 16 to 20 of the
    1500-byte buffer, whatever the length [n] of the packet: the slice is in
    bounds and the turn never panics.  The bytes of the field at offsets from
    [n] on are those the buffer held before the read, each of them the zero
    of the fresh buffer or the byte an earlier packet had there; when [n] is
    below 20 this is so for the last byte of the field at least, and when [n]
    is at most 16 for the whole field.  The table is looked up all the same,
    and on a match [packet[:n]] is sent. *)
Theorem C10_destination_from_fixed_offsets w dc ds wg0 s f data sent :
  reachable w dc ds wg0 s → exited s = false → fwd s = Some f →
  let n := (Read (f_packet f) data).1 in
  let packet := (Read (f_packet f) data).2 in
  length (f_packet f) = 1500 ∧
  ∃ ip reads,
    slice packet 16 20 = Some ip ∧ length ip = 4 ∧
    f_packet f = buffer_after reads ∧
    (∀ j, j < 4 → n ≤ 16 + j → ip !! j = f_packet f !! (16 + j)) ∧
    (∀ j b, j < 4 → n ≤ 16 + j → ip !! j = Some b →
       b = Byte.x00 ∨ ∃ old, old ∈ reads ∧ old !! (16 + j) = Some b) ∧
    (n < 20 → ip !! 3 = f_packet f !! 19) ∧
    (n ≤ 16 → slice (f_packet f) 16 20 = Some ip) ∧
    ∃ s' f',
      step w s (ChFwd (ReadOk data) sent) = Some s' ∧ fwd s' = Some f' ∧
      exited s' = false ∧ panics (f_log f') = panics (f_log f) ∧
      ∀ c, clients (qn s) !! IP_String ip = Some c →
           sends (f_log f') = sends (f_log f) ++ [(c, take n data)].
Proof.
  intros Hr Hex Hf n packet.
  destruct (fwd_task_ReadOk w dc ds wg0 s f data sent Hr Hex Hf) as (ip & Hip & Hl & Hs & Hlen).
  destruct (inv_fwd _ _ _ _ _ (reachable_inv _ _ _ _ _ Hr) f Hf) as [reads Hb].
  split; [done|]. exists ip, reads.
  assert (Hres : ∀ j, j < 4 → n ≤ 16 + j → ip !! j = f_packet f !! (16 + j)).
  { intros j Hj Hn. rewrite (slice_lookup _ _ _ _ _ Hip) by lia. by apply Read_residue. }
  repeat split; try done.
  - intros j b Hj Hn Hb'. rewrite Hres in Hb' by done. rewrite Hb in Hb'.
    by apply buffer_after_origin.
  - intros Hn. apply (Hres 3); lia.
  - intros Hn. rewrite slice_Some by lia.
    f_equal. apply list_eq. intros j.
    destruct (decide (j < 4)) as [Hj|Hj].
    + rewrite lookup_take_lt, lookup_drop by done. symmetry. apply Hres; lia.
    + rewrite lookup_take_ge by lia. symmetry. apply lookup_ge_None. lia.
  - eexists _, _. split; [exact Hs|]. split; [done|].
    cbn [f_log f_packet upd_fwd qn exited]. split; [done|]. split.
    + by rewrite panics_app, panics_turn_log, app_nil_r.
    + intros c Hc. rewrite Hc, sends_app, sends_turn_log. f_equal. f_equal. f_equal.
      unfold n. rewrite Read_front, Read_n, Hlen.
      destruct (decide (length data ≤ 1500)).
      * rewrite Nat.min_l by done. by rewrite !take_ge by lia.
      * by rewrite Nat.min_r by lia.
Qed.

(** ** Peer setup *)

Lemma reachable_task w dc ds wg0 s i t :
  reachable w dc ds wg0 s → dials s !! i = Some t →
  task_inv w t ∧ (d_pc t = D_Failed → exited s = true).
Proof.
  intros Hr Hi.
  apply (Forall_lookup_1 _ _ _ _ (inv_tasks _ _ _ _ _ (reachable_inv _ _ _ _ _ Hr)) Hi).
Qed.

Lemma dials_step_eq w s i t r q pc l gone :
  exited s = false → dials s !! i = Some t →
  dial_step w (qn s) t r = Some (q, pc, l, gone) →
  step w s (ChDial i r) =
  Some ((if gone then os_Exit else id) (upd_qn q (upd_dials (<[i := retask t pc l]> (dials s)) s))).
Proof.
  intros Hex Hi Hs. unfold step, dials_step. rewrite Hex, Hi, Hs. by destruct gone.
Qed.


(** C6. The dials of a peer.  With the interval of five seconds and the
    budget of ten of [quicmesh.go], the log of every dial goroutine is a run of
    failed dials, each followed by a wait of five seconds, and then nothing,
    or the dial that succeeded, or the tenth failed dial; it holds ten dials
    at most.  After the tenth failed dial the goroutine has stopped, and the
    process with it. *)
Theorem C6_dial_backoff_and_budget w dc ds wg0 s i t :
  reachable w dc ds wg0 s → dials s !! i = Some t →
  retryInterval = (5 * 1000000000)%Z ∧ retries = 10 ∧
  dial_count (d_log t) ≤ 10 ∧
  ∃ k tail,
    attempts (d_log t) = backoffs (endpoint (d_peer t)) k ++ tail ∧ k < 10 ∧
    (tail = [] ∨ tail = [EDial (endpoint (d_peer t)) true] ∨
     (tail = [EDial (endpoint (d_peer t)) false] ∧ k = 9 ∧
      d_pc t = D_Failed ∧ exited s = true ∧ ∀ c, step w s c = None)).
Proof.
  intros Hr Hi. split; [done|]. split; [done|].
  destruct (reachable_task _ _ _ _ _ _ _ Hr Hi) as [Ht Hfail].
  assert (∃ k tail,
    attempts (d_log t) = backoffs (endpoint (d_peer t)) k ++ tail ∧ k < 10 ∧
    (tail = [] ∨ tail = [EDial (endpoint (d_peer t)) true] ∨
     (tail = [EDial (endpoint (d_peer t)) false] ∧ k = 9 ∧
      d_pc t = D_Failed ∧ exited s = true ∧ ∀ c, step w s c = None))) as Hshape.
  { unfold task_inv in Ht.
    destruct (d_pc t) as [|c host k|c| |] eqn:Hpc.
    - exists 0, []. rewrite Ht. split; [done|]. split; [lia|]. auto.
    - destruct Ht as (_ & _ & _ & -> & Hk). exists k, []. rewrite app_nil_r. auto.
    - destruct Ht as (_ & _ & _ & k & Hk & [->| ->]).
      + exists k, []. rewrite app_nil_r. auto.
      + exists k, [EDial (endpoint (d_peer t)) true]. auto.
    - destruct Ht as (k & Hk & [->| ->]).
      + exists k, []. rewrite app_nil_r. auto.
      + exists k, [EDial (endpoint (d_peer t)) true]. auto.
    - destruct Ht as [-> | ->].
      + exists 0, []. split; [done|]. split; [lia|]. auto.
      + exists 9, [EDial (endpoint (d_peer t)) false]. split; [done|]. split; [lia|].
        right. right. repeat split; auto. intros c. apply exited_stuck. auto. }
  split; [|done].
  destruct Hshape as (k & tail & Hlog & Hk & Htail).
  rewrite <- dial_count_attempts, Hlog, dial_count_app, dial_count_backoffs.
  destruct Htail as [->|[->|(-> & _)]]; unfold dial_count; simpl; lia.
Qed.

(** ** The two tables *)

Lemma length_omap_le {A B} (f : A → option B) (l : list A) : length (omap f l) ≤ length l.
Proof.
  induction l as [|x l IH]; [done|].
  change (omap f (x :: l)) with (match f x with Some y => y :: omap f l | None => omap f l end).
  destruct (f x); simpl; lia.
Qed.

Lemma filter_fst_unique {A} (l : list (string * A)) (k : string) :
  NoDup (l.*1) → length (filter (λ e, e.1 = k) l) ≤ 1.
Proof.
  induction l as [|[k' x] l IH]; simpl; [lia|].
  intros Hnd. apply NoDup_cons in Hnd as [Hnotin Hnd].
  rewrite filter_cons. simpl. case_decide as Hk; [|auto]. subst k'.
  destruct (filter (λ e, e.1 = k) l) as [|[k' y] l'] eqn:Hfl; [simpl; lia|].
  exfalso. apply Hnotin.
  assert ((k', y) ∈ filter (λ e, e.1 = k) l) as Hin by (rewrite Hfl; left).
  apply list_elem_of_filter in Hin as [Hk Hin]. simpl in Hk. subst k'.
  apply list_elem_of_fmap. by exists (k, y).
Qed.

(** C9, as the code has it.  With N peers in the configuration the table of
    clients never holds more than N entries, each under the canonical address
    of a configured peer, and the table of connections never holds more than
    one entry for a host. *)
Theorem C9_tables_bounded w dc ds wg0 s :
  reachable w dc ds wg0 s →
  size (clients (qn s)) ≤ length (peers (qc (qn s))) ∧
  (∀ key, is_Some (clients (qn s) !! key) →
          ∃ p, p ∈ peers (qc (qn s)) ∧ canonical p = Some key) ∧
  ∀ host, length (filter (λ e, e.1 = host) (map_to_list (connections (qn s)))) ≤ 1.
Proof.
  intros Hr. pose proof (inv_clients _ _ _ _ _ (reachable_inv _ _ _ _ _ Hr)) as Hc.
  assert (Hkeys : ∀ key, is_Some (clients (qn s) !! key) →
                         ∃ p, p ∈ peers (qc (qn s)) ∧ canonical p = Some key).
  { intros key [c Hkey]. destruct (Hc key c Hkey) as (p & ? & ? & _). eauto. }
  split; [|split; [done|]].
  - rewrite <- length_map_to_list, <- (length_fmap fst).
    etrans; [|apply (length_omap_le canonical)].
    apply submseteq_length, NoDup_submseteq; [apply NoDup_fst_map_to_list|].
    intros key Hin. apply list_elem_of_fmap in Hin as ([key' c] & -> & Hin).
    apply elem_of_map_to_list in Hin. simpl.
    destruct (Hkeys key') as (p & Hp & Hcan); [by eexists|].
    apply list_elem_of_omap. eauto.
  - intros host. apply filter_fst_unique, NoDup_fst_map_to_list.
Qed.

(** ** Start-up *)

Lemma createTunIface_ok w q name :
  water_New w = inr name →
  ip_addr_add w (localEndpoint (nodeInterface (qc q)) +:+ "/24") name = None →
  ip_link_up w name = None →
  createTunIface w q =
  (inr (set_localIf name q),
   [ELog Debug "TUN interface created: %s"; ELog Debug "IP address assigned to TUN interface";
    ELog Debug "TUN interface %s is up and running"]).
Proof. intros H1 H2 H3. unfold createTunIface. by rewrite H1, H2, H3. Qed.

(** The goroutine of [Start] starts the dial goroutines of the peers it has
    still to go through, one a transition, whatever the others do
    meanwhile. *)
Lemma run_Range w ps : ∀ s,
  exited s = false → main s = M_Range ps →
  ∃ s', run w s (replicate (length ps) ChMain) = Some s' ∧
        main s' = M_Range [] ∧ dials s' = dials s ++ (go_dial <$> ps) ∧
        exited s' = false ∧ server s' = server s ∧ qn s' = qn s ∧
        wg s' = wg s ∧ fwd s' = fwd s.
Proof.
  induction ps as [|p ps IH]; intros s Hex Hm; simpl.
  - exists s. by rewrite app_nil_r.
  - unfold step. rewrite Hex. unfold main_step. rewrite Hm.
    destruct (IH (upd_dials (dials s ++ [go_dial p])
                   (upd_main (M_Range ps) [ELog Debug "Starting client for peer %s"] s)))
      as (s' & Hrun & ? & Hd & ? & ? & ? & ? & ?); [done..|].
    exists s'. rewrite Hrun. simpl in *. rewrite Hd, <- app_assoc. done.
Qed.

(** A dial goroutine at its first statement always has a transition. *)
Lemma dial_step_D_Start w q t r : d_pc t = D_Start → is_Some (dial_step w q t r).
Proof.
  intros Hpc. unfold dial_step. rewrite Hpc.
  destruct (canonical _); [|done]. destruct (clients q !! _); [done|].
  by destruct (SplitHostPort w _) as [|[? ?]].
Qed.

(** After the wait the loop over the peers runs to its end. *)
Lemma run_after_wait w s :
  exited s = false → main s = M_Wait → wg s = 0 → disableClient (qn s) = false →
  ∃ s', run w s (replicate (S (length (peers (qc (qn s))))) ChMain) = Some s' ∧
        dials s' = dials s ++ (go_dial <$> peers (qc (qn s))) ∧
        exited s' = false ∧ server s' = server s ∧ qn s' = qn s ∧ fwd s' = fwd s.
Proof.
  intros Hex Hm Hwg Hdc. simpl. unfold step. rewrite Hex. unfold main_step.
  rewrite Hm, Hwg. simpl. unfold after_server. rewrite Hdc.
  destruct (run_Range w (peers (qc (qn s)))
              (upd_main (M_Range (peers (qc (qn s)))) [] s))
    as (s' & Hrun & _ & ? & ? & ? & ? & _ & ?); [done..|].
  exists s'. by rewrite Hrun.
Qed.

Lemma findPortBinding_symmetric w q err :
  IsSymmetricNAT w (listenPort (nodeInterface (qc q))) = (true, err) →
  findPortBinding w q =
  (Ret ("", Some "node is behind Symmetric NAT"),
   EStunNAT (listenPort (nodeInterface (qc q))) ::
   match err with Some e => [ELog Error e] | None => [] end ++
   [ELog Warn "Node is behind Symmetric NAT"]).
Proof. intros H. unfold findPortBinding. by rewrite H. Qed.

(** C2, as the code has it.  When the classification answers that the node
    is behind a symmetric NAT, [Start] logs the warning, makes no binding
    request and goes on.  The result of [findPortBinding] is dropped: with the
    server side enabled the server goroutine is started as on any other node
    and enters its accept loop.  The dial goroutines of all configured peers
    are started once the listener is there, and each of them can run.  The
    flag [symmetricNAT] of the struct is as [NewQuicMesh] left it. *)
Theorem C2_symmetric_nat_server_still_started w conf name err :
  readQuicConf w = inr conf →
  water_New w = inr name →
  ip_addr_add w (localEndpoint (nodeInterface conf) +:+ "/24") name = None →
  ip_link_up w name = None →
  IsSymmetricNAT w (listenPort (nodeInterface conf)) = (true, err) →
  ∃ s1 s3 s4,
    step w (boot false false 0) ChMain = Some s1 ∧
    exited s1 = false ∧ main s1 = M_Setup ∧
    ELog Warn "Node is behind Symmetric NAT" ∈ main_log s1 ∧
    (∀ port, EStunBinding port ∉ main_log s1) ∧
    run w s1 [ChMain; ChServer (SrvListen None)] = Some s3 ∧
    server s3 = Some S_Accepting ∧ exited s3 = false ∧
    run w s3 (replicate (S (length (peers conf))) ChMain) = Some s4 ∧
    dials s4 = go_dial <$> peers conf ∧
    server s4 = Some S_Accepting ∧ exited s4 = false ∧
    symmetricNAT (qn s4) = false ∧
    ∀ i r, i < length (peers conf) → is_Some (step w s4 (ChDial i r)).
Proof.
  intros Hconf Hnew Hadd Hup Hnat.
  pose (q2 := set_localIf name (set_qc conf (NewQuicMesh false false))).
  pose (l1 :=
     ([ELog Info "QuicMesh Starting"; ELog Info "Read the quic config file : %s"] ++
      [ELog Debug "QuicMesh config: %v"; ELog Info "Create tunnel interface on local host"]) ++
     [ELog Debug "TUN interface created: %s"; ELog Debug "IP address assigned to TUN interface";
      ELog Debug "TUN interface %s is up and running"] ++
     EStunNAT (listenPort (nodeInterface conf)) ::
     match err with Some e => [ELog Error e] | None => [] end ++
     [ELog Warn "Node is behind Symmetric NAT"]).
  assert (HS : Start_entry w (NewQuicMesh false false) = (StartSetup q2, l1)).
  { unfold Start_entry. rewrite Hconf.
    rewrite (createTunIface_ok w _ name) by done.
    cbn [disableServer set_localIf set_qc NewQuicMesh].
    rewrite (findPortBinding_symmetric w _ err) by done. done. }
  pose (s1 := upd_qn q2 (upd_main M_Setup l1 (boot false false 0))).
  pose (s3 := upd_wg 0 (upd_server S_Accepting [ELog Info "Starting server on %s"]
                (upd_wg 1 (upd_server S_Start [] (upd_main M_Wait [] s1))))).
  destruct (run_after_wait w s3) as (s4 & Hrun & Hd & Hex4 & Hsrv4 & Hq4 & _); [done..|].
  exists s1, s3, s4.
  split. { unfold step, main_step. cbn [exited main qn boot]. by rewrite HS. }
  split; [done|]. split; [done|].
  split. { unfold s1, l1. simpl. rewrite !elem_of_cons, elem_of_app, !elem_of_cons. auto 20. }
  split. { intros port. unfold s1, l1. simpl.
           rewrite !elem_of_cons, elem_of_app, !elem_of_cons, !elem_of_nil.
           destruct err; simpl; rewrite ?elem_of_cons, ?elem_of_nil; intuition discriminate. }
  split; [done|]. split; [done|]. split; [done|].
  split; [exact Hrun|]. split; [by rewrite Hd|]. split; [by rewrite Hsrv4|].
  split; [done|]. split; [by rewrite Hq4|].
  intros i r Hi. unfold step, dials_step. rewrite Hex4, Hd. simpl.
  rewrite list_lookup_fmap.
  destruct (lookup_lt_is_Some_2 (peers conf) i Hi) as [p Hp]. rewrite Hp. simpl.
  destruct (dial_step_D_Start w (qn s4) (go_dial p) r eq_refl) as [[[[q pc] l] gone] ->].
  done.
Qed.

(** C3, as the code has it.  An error of the configuration reader or of the
    creation of the device makes [Start] return that error to its caller
    with no goroutine started; [Start] itself does not end the process.
    A failed STUN binding request, a tenth failed dial of a peer and a failed
    read from the device each end the process through the fatal line of the
    logger: from then on nothing runs. *)
Theorem C3_what_ends_the_process w :
  (∀ dc ds wg0 e,
     readQuicConf w = inl e →
     ∃ s', step w (boot dc ds wg0) ChMain = Some s' ∧
           main s' = M_Returned (Some e) ∧ exited s' = false ∧
           server s' = None ∧ dials s' = [] ∧ fwd s' = None) ∧
  (∀ dc ds wg0 conf e,
     readQuicConf w = inr conf →
     (createTunIface w (set_qc conf (NewQuicMesh dc ds))).1 = inl e →
     ∃ s', step w (boot dc ds wg0) ChMain = Some s' ∧
           main s' = M_Returned (Some e) ∧ exited s' = false ∧
           server s' = None ∧ dials s' = [] ∧ fwd s' = None) ∧
  (∀ dc wg0 conf name err res e,
     readQuicConf w = inr conf →
     water_New w = inr name →
     ip_addr_add w (localEndpoint (nodeInterface conf) +:+ "/24") name = None →
     ip_link_up w name = None →
     IsSymmetricNAT w (listenPort (nodeInterface conf)) = (false, err) →
     GetPortBinding w (listenPort (nodeInterface conf)) = (res, Some e) →
     ∃ s', step w (boot dc false wg0) ChMain = Some s' ∧ exited s' = true) ∧
  (∀ s i t c host e,
     exited s = false → dials s !! i = Some t →
     d_pc t = D_Retry c host 9 → connections (qn s) !! host = None →
     ∃ s', step w s (ChDial i (DialErr e)) = Some s' ∧ exited s' = true) ∧
  (∀ s f e sent,
     exited s = false → fwd s = Some f →
     ∃ s', step w s (ChFwd (ReadErr e) sent) = Some s' ∧ exited s' = true) ∧
  (∀ s c, exited s = true → step w s c = None).
Proof.
  repeat split.
  - intros dc ds wg0 e Hconf. eexists. split.
    { unfold step, main_step, Start_entry. cbn [exited main qn boot]. by rewrite Hconf. }
    done.
  - intros dc ds wg0 conf e Hconf Htun.
    destruct (createTunIface w _) as [[e'|q2] l] eqn:HT; simpl in Htun; [|done].
    injection Htun as ->. eexists. split.
    { unfold step, main_step, Start_entry. cbn [exited main qn boot]. by rewrite Hconf, HT. }
    done.
  - intros dc wg0 conf name err res e Hconf Hnew Hadd Hup Hnat Hbind. eexists. split.
    { unfold step, main_step, Start_entry. cbn [exited main qn boot]. rewrite Hconf.
      rewrite (createTunIface_ok w _ name) by done.
      cbn [disableServer set_localIf set_qc NewQuicMesh].
      unfold findPortBinding. cbn [qc set_localIf set_qc].
      rewrite Hnat, Hbind. done. }
    done.
  - intros s i t c host e Hex Hi Hpc Hconn. eexists. split.
    { eapply (dials_step_eq w s i t _ _ _ _ true Hex Hi).
      unfold dial_step. by rewrite Hpc, Hconn. }
    done.
  - intros s f e sent Hex Hf. eexists. split.
    { unfold step, fwd_task_step. rewrite Hex, Hf. done. }
    done.
  - intros s c. apply exited_stuck.
Qed.


(** ** Stop *)

(** [Stop] writes one line and touches nothing else: whatever transition a
    goroutine had before the call it has after it, with the same result. *)
Lemma Stop_commutes w s c : step w (Stop s) c = Stop <$> step w s c.
Proof.
  destruct s as [q n ex m ml srv sl dl fw cl].
  unfold step; simpl. destruct ex; [done|].
  destruct c as [|a|i r|r sent|]; simpl.
  - unfold main_step; simpl.
    destruct m as [| | |[|p ps]| |r]; simpl; try done.
    + by destruct (Start_entry w q) as [[?| |?] ?].
    + by destruct (disableServer q).
    + by case_decide.
  - unfold server_step; simpl.
    destruct srv as [[| |]|]; destruct a as [[e|]|host conn|r]; simpl; try done.
    by destruct n.
  - unfold dials_step; simpl.
    destruct (dl !! i) as [t|]; [|done]; simpl.
    destruct (dial_step w q t r) as [[[[q' pc] l] gone]|]; [|done]; simpl.
    by destruct gone.
  - unfold fwd_task_step; simpl.
    destruct fw as [f|]; [|done]; simpl.
    destruct (fwd_step q (f_packet f) r sent) as [[packet l] gone].
    by destruct gone.
  - done.
Qed.

Lemma Stop_fields s :
  qn (Stop s) = qn s ∧ wg (Stop s) = wg s ∧ exited (Stop s) = exited s ∧
  main (Stop s) = main s ∧ server (Stop s) = server s ∧
  dials (Stop s) = dials s ∧ fwd (Stop s) = fwd s ∧
  caller_log (Stop s) = caller_log s ++ [ELog Info "QuicMesh Stop"].
Proof. done. Qed.

(** * The claims on the sample mesh *)

Section OnTheSample.
Import Sample.

Lemma reachable_after w dc ds cs :
  is_Some (run w (boot dc ds 0) cs) → reachable w dc ds 0 (after w dc ds cs).
Proof. intros [s Hs]. exists cs. unfold after. by rewrite Hs. Qed.

Lemma C1_witness :
  ∃ s' f',
    step w0 s0 (ChFwd (ReadOk (ipv4 [10; 1; 0; 3]%N 28)) None) = Some s' ∧
    fwd s' = Some f' ∧
    sends (f_log f') = sends (f_log f0) ++ [(c2, take 1500 (ipv4 [10; 1; 0; 3]%N 28))].
Proof.
  destruct (C1_forward_to_registered_peer w0 false false 0 s0 f0
              (ipv4 [10; 1; 0; 3]%N 28) None "10.1.0.3" c2)
    as (s' & f' & Hs & Hf & Hsend & _).
  - apply reachable_after. vm_compute. eauto.
  - vm_compute. reflexivity.
  - vm_compute. reflexivity.
  - vm_compute. reflexivity.
  - vm_compute. reflexivity.
  - exists s', f'. auto.
Defined.

(** The routing scenario of the two peers: a packet for 10.1.0.3 goes to the
    client of the second peer and not to the client of the first. *)
Example route_to_second_peer :
  (λ s, sends <$> (f_log <$> fwd s)) <$>
    step w0 s0 (ChFwd (ReadOk (ipv4 [10; 1; 0; 3]%N 28)) None) =
  Some (Some [(c2, ipv4 [10; 1; 0; 3]%N 28)]) ∧
  clients (qn s0) !! "10.1.0.2" = Some c1 ∧ c1 ≠ c2.
Proof. split; [vm_compute; reflexivity|]. split; [vm_compute; reflexivity|]. discriminate. Qed.

Lemma C5_witness :
  ∃ s',
    step w0 s0 (ChFwd (ReadOk (ipv4 [10; 1; 0; 9]%N 28)) None) = Some s' ∧
    exited s' = false ∧
    ∀ r' sent', is_Some (step w0 s' (ChFwd r' sent')).
Proof.
  destruct (C5_unknown_destination_dropped w0 false false 0 s0 f0
              (ipv4 [10; 1; 0; 9]%N 28) None "10.1.0.9")
    as (s' & Hs & _ & _ & Hex & Hnext).
  - apply reachable_after. vm_compute. eauto.
  - vm_compute. reflexivity.
  - vm_compute. reflexivity.
  - vm_compute. reflexivity.
  - vm_compute. reflexivity.
  - exists s'. auto.
Defined.

Lemma C10_witness :
  length (f_packet f0) = 1500 ∧
  ∃ ip, slice (Read (f_packet f0) (ipv4 [10; 1; 0; 3]%N 10)).2 16 20 = Some ip ∧
        length ip = 4 ∧ ip !! 3 = f_packet f0 !! 19.
Proof.
  destruct (C10_destination_from_fixed_offsets w0 false false 0 s0 f0
              (ipv4 [10; 1; 0; 3]%N 10) None)
    as (Hlen & ip & reads & Hip & Hl & _ & _ & _ & Hlast & _).
  - apply reachable_after. vm_compute. eauto.
  - vm_compute. reflexivity.
  - vm_compute. reflexivity.
  - split; [exact Hlen|]. exists ip. split; [exact Hip|]. split; [exact Hl|].
    apply Hlast. vm_compute. lia.
Defined.

(** A packet of ten bytes that follows a packet for the second peer: its
    ten bytes go to the second peer, for the address left in the buffer. *)
Example short_packet_follows_residue :
  (λ s, sends <$> (f_log <$> fwd s)) <$>
    run w0 s0 [ChFwd (ReadOk (ipv4 [10; 1; 0; 3]%N 28)) None;
               ChFwd (ReadOk (replicate 10 Byte.x45)) None] =
  Some (Some [(c2, ipv4 [10; 1; 0; 3]%N 28); (c2, replicate 10 Byte.x45)]).
Proof. vm_compute. reflexivity. Qed.


Lemma C6_witness :
  dial_count (d_log (task s0 1)) ≤ 10 ∧
  ∃ k tail, attempts (d_log (task s0 1)) = backoffs "10.0.0.3:5000" k ++ tail ∧ k < 10.
Proof.
  destruct (C6_dial_backoff_and_budget w0 false false 0 s0 1 (task s0 1))
    as (_ & _ & Hcount & k & tail & Hlog & Hk & _).
  - apply reachable_after. vm_compute. eauto.
  - vm_compute. reflexivity.
  - split; [exact Hcount|]. exists k, tail. auto.
Defined.

(** The ten dials of a peer that is never there, and the end of the
    process. *)
Example ten_dials_then_exit :
  dial_count (d_log (task (after w0 false false unreachable) 0)) = 10 ∧
  exited (after w0 false false unreachable) = true ∧
  run w0 (boot false false 0) (unreachable ++ [ChDial 0 (DialOk 1)]) = None.
Proof. vm_compute. auto. Qed.

Lemma C9_witness :
  size (clients (qn s0)) ≤ length (peers (qc (qn s0))) ∧
  ∀ host, length (filter (λ e, e.1 = host) (map_to_list (connections (qn s0)))) ≤ 1.
Proof.
  destruct (C9_tables_bounded w0 false false 0 s0) as (Hsize & _ & Hconn).
  - apply reachable_after. vm_compute. eauto.
  - auto.
Defined.

(** C9 as stated fails: two peers behind the host 10.0.0.2, both dialled and
    registered, and the table of connections has no entry for that host; the
    two clients hold two sessions. *)
Lemma C9_counterexample :
  reachable w_shared false true 0 (after w_shared false true shared) ∧
  SplitHostPort w_shared (endpoint P1) = inr ("10.0.0.2", "5000") ∧
  SplitHostPort w_shared (endpoint P3) = inr ("10.0.0.2", "5001") ∧
  connections (qn (after w_shared false true shared)) !! "10.0.0.2" = None ∧
  cl_conn <$> clients (qn (after w_shared false true shared)) !! "10.1.0.2" = Some (Some 1) ∧
  cl_conn <$> clients (qn (after w_shared false true shared)) !! "10.1.0.4" = Some (Some 2).
Proof.
  split; [apply reachable_after; vm_compute; eauto|].
  vm_compute. auto.
Qed.

Lemma C2_witness :
  ∃ s1 s3,
    step w_sym (boot false false 0) ChMain = Some s1 ∧
    run w_sym s1 [ChMain; ChServer (SrvListen None)] = Some s3 ∧
    server s3 = Some S_Accepting.
Proof.
  destruct (C2_symmetric_nat_server_still_started w_sym (conf [P1; P2]) "tun0" None)
    as (s1 & s3 & s4 & H1 & _ & _ & _ & _ & H3 & Hsrv & _);
    [reflexivity..|].
  exists s1, s3. auto.
Defined.

(** C2 as stated fails: on a node that the classification reports behind a
    symmetric NAT the server goroutine is started and is in its accept
    loop. *)
Lemma C2_counterexample :
  IsSymmetricNAT w_sym (listenPort (nodeInterface (conf [P1; P2]))) = (true, None) ∧
  reachable w_sym false false 0 (after w_sym false false listening) ∧
  server (after w_sym false false listening) = Some S_Accepting ∧
  exited (after w_sym false false listening) = false.
Proof.
  split; [reflexivity|]. split; [apply reachable_after; vm_compute; eauto|].
  vm_compute. auto.
Qed.

Lemma C3_witness :
  (∃ s', step w_stun (boot false false 0) ChMain = Some s' ∧ exited s' = true) ∧
  (∃ s', step w0 s0 (ChFwd (ReadErr "file already closed") None) = Some s' ∧ exited s' = true).
Proof.
  destruct (C3_what_ends_the_process w_stun) as (_ & _ & Hstun & _).
  destruct (C3_what_ends_the_process w0) as (_ & _ & _ & _ & Hread & _).
  split.
  - apply (Hstun false 0 (conf [P1; P2]) "tun0" None "" "i/o timeout"); reflexivity.
  - apply (Hread s0 f0); vm_compute; reflexivity.
Defined.

(** C3 as stated fails: the process is gone after a failed STUN binding
    request, after the tenth failed dial of one peer, and after a failed read
    from the device. *)
Lemma C3_counterexample :
  GetPortBinding w_stun 4242 = ("", Some "i/o timeout") ∧
  exited (after w_stun false false [ChMain]) = true ∧
  reachable w_stun false false 0 (after w_stun false false [ChMain]) ∧
  exited (after w0 false false unreachable) = true ∧
  reachable w0 false false 0 (after w0 false false unreachable) ∧
  (exited <$> step w0 s0 (ChFwd (ReadErr "file already closed") None)) = Some true.
Proof.
  split; [reflexivity|]. split; [vm_compute; reflexivity|].
  split; [apply reachable_after; vm_compute; eauto|].
  split; [vm_compute; reflexivity|].
  split; [apply reachable_after; vm_compute; eauto|].
  vm_compute. reflexivity.
Qed.


(** C8 on the running mesh.  Both peers are connected, the server is in its
    accept loop and the forwarding loop is reading.  After [Stop] the device
    is still there, the tables hold what they held, the server still accepts
    and the loop still forwards: the call has written its line and no
    more. *)
Theorem C8_Stop_leaves_everything_running :
  reachable w0 false false 0 s0 ∧
  step w0 s0 ChStop = Some (Stop s0) ∧
  caller_log (Stop s0) = [ELog Info "QuicMesh Stop"] ∧
  exited (Stop s0) = false ∧
  localIf (qn (Stop s0)) = Some "tun0" ∧
  clients (qn (Stop s0)) = clients (qn s0) ∧ size (clients (qn (Stop s0))) = 2 ∧
  server (Stop s0) = Some S_Accepting ∧
  fwd (Stop s0) = Some f0 ∧
  is_Some (step w0 (Stop s0) (ChServer (SrvAccept "10.0.0.9" 3))) ∧
  (λ s, sends <$> (f_log <$> fwd s)) <$>
    step w0 (Stop s0) (ChFwd (ReadOk (ipv4 [10; 1; 0; 3]%N 28)) None) =
  Some (Some [(c2, ipv4 [10; 1; 0; 3]%N 28)]).
Proof.
  split; [apply reachable_after; vm_compute; eauto|].
  split; [vm_compute; reflexivity|].
  split; [vm_compute; reflexivity|].
  split; [vm_compute; reflexivity|].
  split; [vm_compute; reflexivity|].
  split; [reflexivity|].
  split; [vm_compute; reflexivity|].
  split; [vm_compute; reflexivity|].
  split; [vm_compute; reflexivity|].
  split; [vm_compute; eexists; reflexivity|].
  vm_compute. reflexivity.
Qed.

End OnTheSample.

(** * More of the code *)

(** ** How one transition changes the state *)

Lemma reachable_boot w dc ds wg0 : reachable w dc ds wg0 (boot dc ds wg0).
Proof. by exists []. Qed.

(** Induction over the states of a process, with the state before the
    transition known to be one of them. *)
Lemma reachable_induction w dc ds wg0 (P : Sys → Prop) :
  P (boot dc ds wg0) →
  (∀ s c s', reachable w dc ds wg0 s → P s → step w s c = Some s' → P s') →
  ∀ s, reachable w dc ds wg0 s → P s.
Proof.
  intros H0 Hstep s [cs Hrun]. revert s Hrun.
  induction cs as [|c cs IH] using rev_ind; intros s Hrun.
  - injection Hrun as <-. done.
  - rewrite run_app in Hrun.
    destruct (run w (boot dc ds wg0) cs) as [s1|] eqn:H1; [|done].
    simpl in Hrun. destruct (step w s1 c) as [s2|] eqn:H2; [|done].
    injection Hrun as <-.
    apply (Hstep s1 c s2); [by exists cs|by apply IH|done].
Qed.

Lemma step_live w s c s' : step w s c = Some s' → exited s = false.
Proof. unfold step. by destruct (exited s). Qed.

Lemma main_step_frame w s s' :
  main_step w s = Some s' →
  dials s' = dials s ∨ ∃ p ps, main s = M_Range (p :: ps) ∧ dials s' = dials s ++ [go_dial p].
Proof.
  unfold main_step. intros H.
  destruct (main s) as [| | |[|p ps]| |r].
  - destruct (Start_entry w (qn s)) as [[?| |?] ?]; injection H as <-; by left.
  - destruct (disableServer (qn s)); injection H as <-; by left.
  - case_decide; [|done]. injection H as <-; by left.
  - injection H as <-; by left.
  - injection H as <-. right. eauto.
  - injection H as <-; by left.
  - done.
Qed.

(** The goroutine of [Start] writes [qn] in its first transition and never
    again. *)
Lemma main_step_qn w s s' :
  main_step w s = Some s' →
  qn s' = qn s ∨
  ∃ l, main s = M_Start ∧ main s' = M_Setup ∧ Start_entry w (qn s) = (StartSetup (qn s'), l).
Proof.
  unfold main_step. intros H.
  destruct (main s) as [| | |[|p ps]| |r].
  - destruct (Start_entry w (qn s)) as [[?| |q] l] eqn:HS; injection H as <-; simpl; eauto.
  - destruct (disableServer (qn s)); injection H as <-; by left.
  - case_decide; [|done]. injection H as <-; by left.
  - injection H as <-; by left.
  - injection H as <-; by left.
  - injection H as <-; by left.
  - done.
Qed.

Lemma server_step_frame s a s' :
  server_step s a = Some s' →
  main s' = main s ∧ main_log s' = main_log s ∧ dials s' = dials s ∧ fwd s' = fwd s ∧
  caller_log s' = caller_log s ∧
  (qn s' = qn s ∨
   ∃ host conn, a = SrvAccept host conn ∧ server s = Some S_Accepting ∧
     qn s' = set_connections (<[host := conn]> (connections (qn s))) (qn s)).
Proof.
  unfold server_step. intros H.
  destruct (server s) as [[| |]|] eqn:Hsrv; [| | |by destruct a].
  - destruct a as [[e|]| |]; [| |done|done].
    + injection H as <-. simpl. auto 10.
    + destruct (wg s); injection H as <-; simpl; auto 10.
  - destruct a as [|host conn|r]; [done| |]; injection H as <-; simpl.
    + repeat split; try done. right. eauto.
    + auto 10.
  - by destruct a.
Qed.

Lemma dials_step_frame w s i r s' :
  dials_step w s i r = Some s' →
  ∃ t q pc l gone,
    dials s !! i = Some t ∧ dial_step w (qn s) t r = Some (q, pc, l, gone) ∧
    qn s' = q ∧ dials s' = <[i := retask t pc l]> (dials s) ∧
    exited s' = (exited s || gone) ∧
    main s' = main s ∧ main_log s' = main_log s ∧ server s' = server s ∧
    server_log s' = server_log s ∧ wg s' = wg s ∧ fwd s' = fwd s ∧
    caller_log s' = caller_log s.
Proof.
  unfold dials_step. intros H.
  destruct (dials s !! i) as [t|] eqn:Hi; [|done].
  destruct (dial_step w (qn s) t r) as [[[[q pc] l] gone]|] eqn:Hs; [|done].
  injection H as <-. exists t, q, pc, l, gone.
  destruct gone; simpl; rewrite ?orb_true_r, ?orb_false_r; auto 15.
Qed.

Lemma fwd_task_step_frame s r sent s' :
  fwd_task_step s r sent = Some s' →
  ∃ f, fwd s = Some f ∧
    fwd s' = Some {| f_packet := (fwd_step (qn s) (f_packet f) r sent).1.1;
                     f_log := f_log f ++ (fwd_step (qn s) (f_packet f) r sent).1.2 |} ∧
    exited s' = (exited s || (fwd_step (qn s) (f_packet f) r sent).2) ∧
    qn s' = qn s ∧ main s' = main s ∧ main_log s' = main_log s ∧
    server s' = server s ∧ server_log s' = server_log s ∧ wg s' = wg s ∧
    dials s' = dials s ∧ caller_log s' = caller_log s.
Proof.
  unfold fwd_task_step. intros H.
  destruct (fwd s) as [f|] eqn:Hf; [|done]. exists f.
  destruct (fwd_step (qn s) (f_packet f) r sent) as [[packet l] gone].
  injection H as <-.
  destruct gone; simpl; rewrite ?orb_true_r, ?orb_false_r; auto 15.
Qed.

(** ** The tables over a run *)

Lemma step_tables w s c s' :
  step w s c = Some s' →
  (∀ key, is_Some (clients (qn s) !! key) → is_Some (clients (qn s') !! key)) ∧
  (∀ host, is_Some (connections (qn s) !! host) → is_Some (connections (qn s') !! host)).
Proof.
  unfold step. destruct (exited s); [done|].
  destruct c as [|a|i r|r sent|].
  - intros H. destruct (main_step_qn _ _ _ H) as [->|(l & _ & _ & HS)]; [done|].
    apply Start_entry_keeps in HS as (_ & -> & -> & _). done.
  - intros H. destruct (server_step_frame _ _ _ H)
      as (_ & _ & _ & _ & _ & [->|(host & conn & _ & _ & ->)]); [done|].
    simpl. split; [done|]. intros h Hh.
    destruct (decide (host = h)) as [->|Hne].
    + rewrite lookup_insert_eq. eauto.
    + by rewrite lookup_insert_ne.
  - intros H. destruct (dials_step_frame _ _ _ _ _ H)
      as (t & q & pc & l & gone & _ & Hs & -> & _).
    destruct (dial_step_qn _ _ _ _ _ _ _ _ Hs)
      as (_ & _ & -> & _ & _ & _ & _ & [->|(key & c & _ & _ & _ & ->)]); [done|].
    split; [|done]. intros k Hk.
    destruct (decide (key = k)) as [->|Hne].
    + rewrite lookup_insert_eq. eauto.
    + by rewrite lookup_insert_ne.
  - intros H. destruct (fwd_task_step_frame _ _ _ _ H) as (f & _ & _ & _ & -> & _). done.
  - intros [= <-]. done.
Qed.

(** X13.  Neither table ever loses a key: whatever the schedule, a canonical
    address that has a client keeps one, and a host that has a connection
    keeps one.  Nothing in the program deletes from [qn.clients] or
    [qn.connections]. *)
Theorem tables_only_grow w cs : ∀ s s',
  run w s cs = Some s' →
  dom (clients (qn s)) ⊆ dom (clients (qn s')) ∧
  dom (connections (qn s)) ⊆ dom (connections (qn s')).
Proof.
  induction cs as [|c cs IH]; intros s s' H; simpl in H.
  - by injection H as <-.
  - destruct (step w s c) as [s1|] eqn:Hs; [|done].
    destruct (step_tables _ _ _ _ Hs) as [Hc Hh].
    destruct (IH _ _ H) as [Hc' Hh']. split.
    + intros key Hk. apply Hc'. apply elem_of_dom. apply Hc. by apply elem_of_dom.
    + intros host Hk. apply Hh'. apply elem_of_dom. apply Hh. by apply elem_of_dom.
Qed.

(** X14.  A transition of the dial goroutine of one peer leaves the other dial
    goroutines, the server, the forwarding loop and the table of connections
    as they were, and changes the table of clients under the canonical address
    of its own peer at most. *)
Theorem dial_task_touches_its_own w s i r s' :
  step w s (ChDial i r) = Some s' →
  (∀ j, j ≠ i → dials s' !! j = dials s !! j) ∧
  length (dials s') = length (dials s) ∧
  connections (qn s') = connections (qn s) ∧
  server s' = server s ∧ fwd s' = fwd s ∧ main s' = main s ∧ wg s' = wg s ∧
  ∀ key, clients (qn s') !! key ≠ clients (qn s) !! key →
         ∃ t, dials s !! i = Some t ∧ canonical (d_peer t) = Some key.
Proof.
  unfold step. destruct (exited s); [done|]. intros H.
  destruct (dials_step_frame _ _ _ _ _ H)
    as (t & q & pc & l & gone & Hi & Hs & Hq & Hd & _ & Hm & _ & Hsrv & _ & Hwg & Hf & _).
  destruct (dial_step_qn _ _ _ _ _ _ _ _ Hs) as (_ & _ & Hco & _ & _ & _ & _ & Hcl).
  rewrite Hd, Hq, Hco. repeat split; try done.
  - intros j Hj. by apply list_lookup_insert_ne.
  - apply length_insert.
  - intros key Hne. exists t. split; [done|].
    destruct Hcl as [Hcl|(key' & c & _ & Hkey & _ & Hcl)]; rewrite Hcl in Hne; [done|].
    destruct (decide (key' = key)) as [->|Hk]; [done|].
    by rewrite lookup_insert_ne in Hne.
Qed.

(** ** Stop over a run *)

(** X15.  [Stop] leaves every schedule as it finds it: the machine run from
    the state after the call ends where it ends without the call, but for
    the one line in the log of the caller. *)
Theorem Stop_changes_no_run w cs : ∀ s, run w (Stop s) cs = Stop <$> run w s cs.
Proof.
  induction cs as [|c cs IH]; intros s; simpl; [done|].
  rewrite Stop_commutes. destruct (step w s c) as [s1|]; simpl; [apply IH|done].
Qed.

(** ** The order of start-up *)

(** X1.  No goroutine before the configuration and the device: in every
    state in which the server goroutine, a dial goroutine or the forwarding
    loop exists, the configuration in [qn.qc] is the one the reader returned
    and [qn.localIf] is set. *)
Theorem device_and_config_before_goroutines w dc ds wg0 s :
  reachable w dc ds wg0 s →
  is_Some (server s) ∨ dials s ≠ [] ∨ is_Some (fwd s) →
  readQuicConf w = inr (qc (qn s)) ∧ is_Some (localIf (qn s)).
Proof.
  intros Hr Hany.
  assert (main s ≠ M_Start ∧ ∀ e, main s ≠ M_Returned (Some e)) as [Hm1 Hm2].
  { pose proof (inv_main _ _ _ _ _ (reachable_inv _ _ _ _ _ Hr)) as Hm.
    unfold main_inv in Hm. split.
    - intros Heq. rewrite Heq in Hm. destruct Hm as (_ & Hsrv & _ & Hd & Hf).
      rewrite Hsrv, Hd, Hf in Hany. destruct Hany as [[? ?]|[?|[? ?]]]; done.
    - intros e Heq. rewrite Heq in Hm. destruct Hm as (Hsrv & Hd & Hf).
      rewrite Hsrv, Hd, Hf in Hany. destruct Hany as [[? ?]|[?|[? ?]]]; done. }
  clear Hany. revert s Hr Hm1 Hm2.
  apply (reachable_induction w dc ds wg0
           (λ s, main s ≠ M_Start → (∀ e, main s ≠ M_Returned (Some e)) →
                 readQuicConf w = inr (qc (qn s)) ∧ is_Some (localIf (qn s)))).
  - done.
  - intros s c s' Hr IH Hs Hm1 Hm2. revert Hs. unfold step.
    destruct (exited s); [done|]. destruct c as [|a|i r|r sent|].
    + intros H.
      assert (main s = M_Start ∨ main s ≠ M_Start) as [Heq|Hne]
        by (destruct (main s); auto; right; discriminate).
      * unfold main_step in H. rewrite Heq in H.
        destruct (Start_entry w (qn s)) as [[?| |q] l] eqn:HS; injection H as <-; simpl in *.
        -- by edestruct Hm2.
        -- done.
        -- apply Start_entry_keeps in HS as (? & _ & _ & _ & _ & _ & _ & ?). done.
      * destruct (main_step_qn _ _ _ H) as [Hq|(l & ? & _)]; [|done].
        rewrite Hq. apply IH; [done|].
        intros e Heq. unfold main_step in H. by rewrite Heq in H.
    + intros H. destruct (server_step_frame _ _ _ H)
        as (Hm & _ & _ & _ & _ & [Hq|(host & conn & _ & _ & Hq)]);
        rewrite Hm in Hm1, Hm2; rewrite Hq; by apply IH.
    + intros H. destruct (dials_step_frame _ _ _ _ _ H)
        as (t & q & pc & l & gone & _ & Hs & Hq & _ & _ & Hm & _).
      destruct (dial_step_qn _ _ _ _ _ _ _ _ Hs) as (Hqc & Hif & _).
      rewrite Hm in Hm1, Hm2. rewrite Hq, Hqc, Hif. by apply IH.
    + intros H. destruct (fwd_task_step_frame _ _ _ _ H) as (f & _ & _ & _ & Hq & Hm & _).
      rewrite Hm in Hm1, Hm2. rewrite Hq. by apply IH.
    + intros [= <-]. by apply IH.
Qed.

(** X2.  The two fields meant for the NAT are never written: whatever the
    classification and the binding request answer, [qn.symmetricNAT] is false
    and [qn.portBinding] is empty in every state. *)
Theorem nat_fields_never_written w dc ds wg0 s :
  reachable w dc ds wg0 s →
  symmetricNAT (qn s) = false ∧ portBinding (qn s) = "".
Proof. intros Hr. apply (inv_nat _ _ _ _ _ (reachable_inv _ _ _ _ _ Hr)). Qed.

(** X7.  The dial goroutines are started in the order of the configuration,
    one for each entry of the list of peers: at any time the peers of the
    goroutines started so far are a prefix of that list, and once [Start] has
    returned nil they are the whole list.  The forwarding loop exists exactly
    when [Start] has returned nil. *)
Theorem one_dial_goroutine_per_peer w ds wg0 s :
  reachable w false ds wg0 s →
  (∃ rest, peers (qc (qn s)) = (d_peer <$> dials s) ++ rest) ∧
  (main s = M_Returned None → d_peer <$> dials s = peers (qc (qn s))) ∧
  (is_Some (fwd s) ↔ main s = M_Returned None).
Proof.
  intros Hr. pose proof (inv_main _ _ _ _ _ (reachable_inv _ _ _ _ _ Hr)) as Hm.
  unfold main_inv in Hm.
  destruct (main s) as [| | |ps| |[e|]] eqn:Hmain.
  - destruct Hm as (_ & _ & _ & Hd & Hf). rewrite Hd, Hf.
    split; [by exists (peers (qc (qn s)))|]. split; [done|]. split; [by intros [? ?]|done].
  - destruct Hm as (_ & _ & Hd & Hf). rewrite Hd, Hf.
    split; [by exists (peers (qc (qn s)))|]. split; [done|]. split; [by intros [? ?]|done].
  - destruct Hm as (_ & Hd & Hf & _). rewrite Hd, Hf.
    split; [by exists (peers (qc (qn s)))|]. split; [done|]. split; [by intros [? ?]|done].
  - destruct Hm as (_ & (done & Hps & Hd) & Hf & _). rewrite Hd, Hf.
    split; [by exists ps|]. split; [done|]. split; [by intros [? ?]|done].
  - destruct Hm as (Hd & Hf & _). rewrite Hd, Hf.
    split; [exists []; by rewrite app_nil_r|]. split; [done|]. split; [by intros [? ?]|done].
  - destruct Hm as (_ & Hd & Hf). rewrite Hd, Hf.
    split; [by exists (peers (qc (qn s)))|]. split; [done|]. split; [by intros [? ?]|done].
  - destruct Hm as (Hd & Hf & _). rewrite Hd.
    split; [exists []; by rewrite app_nil_r|]. done.
Qed.

(** ** One side disabled *)

Lemma no_server_when_disabled w dc wg0 s :
  reachable w dc true wg0 s → server s = None.
Proof.
  intros Hr. pose proof (inv_main _ _ _ _ _ (reachable_inv _ _ _ _ _ Hr)) as Hm.
  unfold main_inv, srv_past in Hm.
  destruct (main s) as [| | |ps| |[e|]]; intuition congruence.
Qed.

Lemma no_dials_when_disabled w ds wg0 s :
  reachable w true ds wg0 s → dials s = [].
Proof.
  intros Hr. pose proof (inv_main _ _ _ _ _ (reachable_inv _ _ _ _ _ Hr)) as Hm.
  unfold main_inv in Hm.
  destruct (main s) as [| | |ps| |[e|]]; try (intuition congruence).
  - destruct Hm as (Hd & _). by apply fmap_nil_inv in Hd.
  - destruct Hm as (Hd & _). by apply fmap_nil_inv in Hd.
Qed.

(** X5.  With the client side disabled no dial goroutine is ever started, the
    table of clients stays empty, and the forwarding loop, which runs all the
    same, sends nothing: every packet read from the device is dropped. *)
Theorem client_side_disabled w ds wg0 s :
  reachable w true ds wg0 s →
  dials s = [] ∧ clients (qn s) = ∅ ∧
  ∀ f, fwd s = Some f → sends (f_log f) = [].
Proof.
  intros Hr. split; [by eapply no_dials_when_disabled|].
  revert s Hr.
  apply (reachable_induction w true ds wg0
           (λ s, clients (qn s) = ∅ ∧ ∀ f, fwd s = Some f → sends (f_log f) = [])).
  - done.
  - intros s c s' Hr [Hcl Hsend] Hs. revert Hs. unfold step.
    destruct (exited s); [done|]. destruct c as [|a|i r|r sent|].
    + intros H. split.
      * destruct (main_step_qn _ _ _ H) as [->|(l & _ & _ & HS)]; [done|].
        apply Start_entry_keeps in HS as (_ & _ & -> & _). done.
      * unfold main_step in H.
        destruct (main s) as [| | |[|p ps]| |r].
        -- destruct (Start_entry w (qn s)) as [[?| |?] ?]; injection H as <-; done.
        -- destruct (disableServer (qn s)); injection H as <-; done.
        -- case_decide; [|done]. injection H as <-; done.
        -- injection H as <-; done.
        -- injection H as <-; done.
        -- injection H as <-. by intros f [= <-].
        -- done.
    + intros H. destruct (server_step_frame _ _ _ H)
        as (_ & _ & _ & -> & _ & [->|(host & conn & _ & _ & ->)]); done.
    + intros H. destruct (dials_step_frame _ _ _ _ _ H) as (t & ? & ? & ? & ? & Hi & _).
      by rewrite (no_dials_when_disabled _ _ _ _ Hr) in Hi.
    + intros H. destruct (fwd_task_step_frame _ _ _ _ H) as (f & Hf & -> & _ & -> & _).
      split; [done|]. intros f' [= <-]. simpl.
      rewrite sends_app, (Hsend f Hf). simpl.
      unfold fwd_step. destruct r as [data|e]; [|done].
      destruct (Read (f_packet f) data) as [n packet].
      destruct (slice packet 16 20); [|done].
      by rewrite Hcl, lookup_empty.
    + intros [= <-]. done.
Qed.

Lemma stuns_app l1 l2 : stuns (l1 ++ l2) = stuns l1 ++ stuns l2.
Proof. apply omap_app. Qed.

Lemma createTunIface_stuns w q : stuns (createTunIface w q).2 = [].
Proof.
  unfold createTunIface. destruct (water_New w) as [e|name]; [done|].
  destruct (ip_addr_add w _ name); [done|]. by destruct (ip_link_up w name).
Qed.

Lemma createTunIface_flag w q q' l :
  createTunIface w q = (inr q', l) → disableServer q' = disableServer q.
Proof. intros H. by apply createTunIface_keeps in H as (_ & _ & _ & _ & ? & _). Qed.

(** The STUN requests of [Start]: none with the server side disabled. *)
Lemma Start_entry_stuns_disabled w q :
  disableServer q = true → stuns (Start_entry w q).2 = [].
Proof.
  intros Hds. unfold Start_entry.
  destruct (readQuicConf w) as [e|conf]; [done|].
  pose proof (createTunIface_stuns w (set_qc conf q)) as Hl.
  destruct (createTunIface w (set_qc conf q)) as [[e|q2] l] eqn:HT; simpl in Hl.
  - cbn [snd]. by rewrite stuns_app, Hl.
  - rewrite (createTunIface_flag _ _ _ _ HT). cbn [disableServer set_qc]. rewrite Hds.
    cbn [snd]. by rewrite stuns_app, Hl.
Qed.

(** X6.  With the server side disabled there is no server goroutine, the
    wait group is not touched and no STUN request is made; nothing enters the
    table of connections, so that no dial goroutine finds a connection to
    reuse. *)
Theorem server_side_disabled w dc wg0 s :
  reachable w dc true wg0 s →
  server s = None ∧ server_log s = [] ∧ wg s = wg0 ∧ connections (qn s) = ∅ ∧
  stuns (main_log s) = [].
Proof.
  intros Hr. split; [by eapply no_server_when_disabled|].
  revert s Hr.
  apply (reachable_induction w dc true wg0
           (λ s, server_log s = [] ∧ wg s = wg0 ∧ connections (qn s) = ∅ ∧
                 stuns (main_log s) = [])).
  - done.
  - intros s c s' Hr (Hl & Hwg & Hco & Hstun) Hs. revert Hs. unfold step.
    destruct (exited s); [done|]. destruct c as [|a|i r|r sent|].
    + intros H. pose proof (inv_ds _ _ _ _ _ (reachable_inv _ _ _ _ _ Hr)) as Hds.
      unfold main_step in H.
      destruct (main s) as [| | |[|p ps]| |r].
      * pose proof (Start_entry_stuns_disabled w (qn s) Hds) as Hlog.
        destruct (Start_entry w (qn s)) as [[e| |q] l] eqn:HS;
          injection H as <-; simpl in *; rewrite stuns_app, Hstun, Hlog; try done.
        apply Start_entry_keeps in HS as (_ & -> & _). done.
      * rewrite Hds in H. injection H as <-. simpl. by rewrite app_nil_r.
      * case_decide; [|done]. injection H as <-. simpl. by rewrite app_nil_r.
      * injection H as <-. simpl. by rewrite app_nil_r.
      * injection H as <-. simpl. by rewrite stuns_app, Hstun.
      * injection H as <-. simpl. by rewrite app_nil_r.
      * done.
    + intros H. unfold server_step in H.
      by rewrite (no_server_when_disabled _ _ _ _ Hr) in H.
    + intros H. destruct (dials_step_frame _ _ _ _ _ H)
        as (t & q & pc & l & gone & _ & Hs & -> & _ & _ & _ & -> & _ & -> & -> & _).
      destruct (dial_step_qn _ _ _ _ _ _ _ _ Hs) as (_ & _ & -> & _). done.
    + intros H. destruct (fwd_task_step_frame _ _ _ _ H)
        as (f & _ & _ & _ & -> & _ & -> & _ & -> & -> & _). done.
    + intros [= <-]. done.
Qed.

(** ** The STUN requests *)

Lemma findPortBinding_stuns w q :
  let port := listenPort (nodeInterface (qc q)) in
  (stuns (findPortBinding w q).2 = [EStunNAT port] ∧ (IsSymmetricNAT w port).1 = true) ∨
  (stuns (findPortBinding w q).2 = [EStunNAT port; EStunBinding port] ∧
   (IsSymmetricNAT w port).1 = false).
Proof.
  unfold findPortBinding. simpl.
  destruct (IsSymmetricNAT w _) as [[|] err]; simpl.
  - left. by destruct err.
  - right. destruct (GetPortBinding w _) as [res [e|]]; by destruct err.
Qed.

Lemma Start_entry_stuns w q :
  stuns (Start_entry w q).2 = [] ∨
  ∃ conf, readQuicConf w = inr conf ∧
    let port := listenPort (nodeInterface conf) in
    (stuns (Start_entry w q).2 = [EStunNAT port] ∧ (IsSymmetricNAT w port).1 = true) ∨
    (stuns (Start_entry w q).2 = [EStunNAT port; EStunBinding port] ∧
     (IsSymmetricNAT w port).1 = false).
Proof.
  unfold Start_entry.
  destruct (readQuicConf w) as [e|conf]; [by left|].
  pose proof (createTunIface_stuns w (set_qc conf q)) as Hl.
  destruct (createTunIface w (set_qc conf q)) as [[e|q2] l] eqn:HT; simpl in Hl.
  { left. cbn [snd]. by rewrite stuns_app, Hl. }
  destruct (disableServer q2).
  { left. cbn [snd]. by rewrite stuns_app, Hl. }
  right. exists conf. split; [done|].
  assert (qc q2 = conf) as Hqc.
  { by apply createTunIface_keeps in HT as (-> & _). }
  pose proof (findPortBinding_stuns w q2) as Hf. rewrite Hqc in Hf. simpl in Hf.
  destruct (findPortBinding w q2) as [[?|] l']; cbn [snd] in *;
    rewrite !stuns_app, Hl; exact Hf.
Qed.

(** X3.  The STUN requests of a process.  There are none before [Start] has
    the device, and none at all with the server side disabled.  Otherwise the
    classification is asked once, for the listen port of the configuration;
    the binding is asked once after it, and only when the classification has
    answered that the NAT is not symmetric. *)
Theorem stun_requests w dc ds wg0 s :
  reachable w dc ds wg0 s →
  stuns (main_log s) = [] ∨
  ∃ conf, readQuicConf w = inr conf ∧ ds = false ∧
    let port := listenPort (nodeInterface conf) in
    (stuns (main_log s) = [EStunNAT port] ∧ (IsSymmetricNAT w port).1 = true) ∨
    (stuns (main_log s) = [EStunNAT port; EStunBinding port] ∧
     (IsSymmetricNAT w port).1 = false).
Proof.
  intros Hr.
  assert (ds = true → stuns (main_log s) = []) as Hoff.
  { intros ->. by apply (server_side_disabled w dc wg0 s Hr). }
  enough ((main s = M_Start → exited s = false → main_log s = []) ∧
          (stuns (main_log s) = [] ∨
           ∃ conf, readQuicConf w = inr conf ∧
             let port := listenPort (nodeInterface conf) in
             (stuns (main_log s) = [EStunNAT port] ∧ (IsSymmetricNAT w port).1 = true) ∨
             (stuns (main_log s) = [EStunNAT port; EStunBinding port] ∧
              (IsSymmetricNAT w port).1 = false))) as [_ [H|(conf & Hc & H)]].
  { by left. }
  { destruct ds; [left; by apply Hoff|]. right. by exists conf. }
  clear Hoff. revert s Hr.
  apply (reachable_induction w dc ds wg0
    (λ s, (main s = M_Start → exited s = false → main_log s = []) ∧
          (stuns (main_log s) = [] ∨
           ∃ conf, readQuicConf w = inr conf ∧
             let port := listenPort (nodeInterface conf) in
             (stuns (main_log s) = [EStunNAT port] ∧ (IsSymmetricNAT w port).1 = true) ∨
             (stuns (main_log s) = [EStunNAT port; EStunBinding port] ∧
              (IsSymmetricNAT w port).1 = false)))).
  - split; [done|by left].
  - intros s c s' Hr [Hlog Hshape] Hs.
    pose proof (step_live _ _ _ _ Hs) as Hex. revert Hs. unfold step. rewrite Hex.
    destruct c as [|a|i r|r sent|].
    + intros H. unfold main_step in H.
      destruct (main s) as [| | |[|p ps]| |r] eqn:Hm.
      * pose proof (Hlog eq_refl Hex) as Hnil.
        pose proof (Start_entry_stuns w (qn s)) as HS.
        destruct (Start_entry w (qn s)) as [[e| |q] l]; injection H as <-;
          simpl in *; rewrite Hnil; simpl; done.
      * destruct (disableServer (qn s)); injection H as <-; simpl;
          rewrite app_nil_r; (split; [|exact Hshape]); unfold after_server;
          by destruct (disableClient (qn s)).
      * case_decide; [|done]. injection H as <-; simpl.
        rewrite app_nil_r. unfold after_server.
        split; [by destruct (disableClient (qn s))|exact Hshape].
      * injection H as <-; simpl. rewrite app_nil_r. split; [done|exact Hshape].
      * injection H as <-; simpl. rewrite stuns_app, app_nil_r. split; [done|exact Hshape].
      * injection H as <-; simpl. rewrite app_nil_r. split; [done|exact Hshape].
      * done.
    + intros H. destruct (server_step_frame _ _ _ H) as (Hm & Hl & _).
      rewrite Hm, Hl. split; [|exact Hshape]. intros Hs _. by apply Hlog.
    + intros H. destruct (dials_step_frame _ _ _ _ _ H)
        as (t & q & pc & l & gone & _ & _ & _ & _ & _ & Hm & Hl & _).
      rewrite Hm, Hl. split; [|exact Hshape]. intros Hs _. by apply Hlog.
    + intros H. destruct (fwd_task_step_frame _ _ _ _ H)
        as (f & _ & _ & _ & _ & Hm & Hl & _).
      rewrite Hm, Hl. split; [|exact Hshape]. intros Hs _. by apply Hlog.
    + intros [= <-]. simpl. done.
Qed.

(** X4.  An error of the NAT classification is logged and changes nothing
    else: [findPortBinding] and the sequential part of [Start] end as they do
    when the classification gives the same answer without an error, and make
    the same STUN requests. *)
Theorem classification_error_is_only_logged w q :
  (findPortBinding w q).1 = (findPortBinding (quiet w) q).1 ∧
  stuns (findPortBinding w q).2 = stuns (findPortBinding (quiet w) q).2 ∧
  (Start_entry w q).1 = (Start_entry (quiet w) q).1 ∧
  stuns (Start_entry w q).2 = stuns (Start_entry (quiet w) q).2.
Proof.
  assert (Hf : ∀ q, (findPortBinding w q).1 = (findPortBinding (quiet w) q).1 ∧
                    stuns (findPortBinding w q).2 = stuns (findPortBinding (quiet w) q).2).
  { intros q0. unfold findPortBinding. simpl.
    destruct (IsSymmetricNAT w _) as [[|] err]; simpl.
    - by destruct err.
    - destruct (GetPortBinding w _) as [res [e|]]; by destruct err. }
  split; [apply Hf|]. split; [apply Hf|].
  unfold Start_entry. simpl.
  destruct (readQuicConf w) as [e|conf]; [done|].
  assert (createTunIface (quiet w) (set_qc conf q) = createTunIface w (set_qc conf q)) as ->
    by done.
  destruct (createTunIface w (set_qc conf q)) as [[e|q2] l]; [done|].
  destruct (disableServer q2); [done|].
  destruct (Hf q2) as [H1 H2].
  destruct (findPortBinding w q2) as [[?|] l1], (findPortBinding (quiet w) q2) as [[?|] l2];
    simpl in *; try done; by rewrite !stuns_app, H2.
Qed.

(** ** The dial goroutines, one by one *)

(** What holds of a fresh dial goroutine and is kept by each of its
    transitions holds of every dial goroutine of every state. *)
Lemma tasks_invariant w dc ds wg0 (P : DialTask → Prop) :
  (∀ p, P (go_dial p)) →
  (∀ q t r q' pc l gone,
     task_inv w t → P t → dial_step w q t r = Some (q', pc, l, gone) → P (retask t pc l)) →
  ∀ s, reachable w dc ds wg0 s → Forall P (dials s).
Proof.
  intros Hnew Hkeep.
  apply (reachable_induction w dc ds wg0 (λ s, Forall P (dials s))).
  - constructor.
  - intros s c s' Hr IH Hs. revert Hs. unfold step.
    destruct (exited s); [done|]. destruct c as [|a|i r|r sent|].
    + intros H. destruct (main_step_frame _ _ _ H) as [->|(p & ps & _ & ->)]; [done|].
      apply Forall_app. split; [done|]. by repeat constructor.
    + intros H. by destruct (server_step_frame _ _ _ H) as (_ & _ & -> & _).
    + intros H. destruct (dials_step_frame _ _ _ _ _ H)
        as (t & q & pc & l & gone & Hi & Hs & _ & -> & _).
      apply Forall_insert; [done|].
      destruct (reachable_task _ _ _ _ _ _ _ Hr Hi) as [Ht _].
      eapply Hkeep; [done| |done]. by eapply Forall_lookup_1.
    + intros H. by destruct (fwd_task_step_frame _ _ _ _ H)
        as (f & _ & _ & _ & _ & _ & _ & _ & _ & _ & -> & _).
    + by intros [= <-].
Qed.

(** X8.  No dial without an address and a host.  For a peer with an empty
    list of allowed addresses, or with an endpoint that does not split, the
    goroutine makes no dial and never reaches the retry loop or the
    registration: it is at its first statement, or it has returned because a
    client was there already, or it has ended the process. *)
Theorem no_dial_for_a_malformed_peer w dc ds wg0 s i t :
  reachable w dc ds wg0 s → dials s !! i = Some t →
  ¬ dialable w (d_peer t) →
  dial_count (d_log t) = 0 ∧
  (d_pc t = D_Start ∨ d_pc t = D_Done ∨ (d_pc t = D_Failed ∧ exited s = true)).
Proof.
  intros Hr Hi Hbad.
  destruct (reachable_task _ _ _ _ _ _ _ Hr Hi) as [_ Hfail].
  assert (Forall (λ t, dialable w (d_peer t) ∨
                       (dial_count (d_log t) = 0 ∧
                        (d_pc t = D_Start ∨ d_pc t = D_Done ∨ d_pc t = D_Failed)))
                 (dials s)) as Hall.
  { apply (tasks_invariant w dc ds wg0); [| |done].
    - intros p. right. auto.
    - intros q t0 r q' pc l gone _ [Hok|[Hc Hpc]] Hs; [by left|]. simpl.
      unfold dial_step in Hs.
      destruct Hpc as [Hpc|[Hpc|Hpc]]; rewrite Hpc in Hs; [|done..].
      destruct (canonical (d_peer t0)) as [key|] eqn:Hkey.
      2:{ injection Hs as <- <- <- <-. right. rewrite dial_count_app, Hc. auto. }
      destruct (clients q !! key).
      { injection Hs as <- <- <- <-. right. rewrite dial_count_app, Hc. auto. }
      destruct (SplitHostPort w _) as [e|[host port]] eqn:Hsp.
      { injection Hs as <- <- <- <-. right. rewrite dial_count_app, Hc. auto. }
      left. split; [by rewrite Hkey|eauto]. }
  destruct (Forall_lookup_1 _ _ _ _ Hall Hi) as [?|[Hc Hpc]]; [done|].
  split; [done|]. destruct Hpc as [?|[?|?]]; auto.
Qed.

Lemma elem_of_attempts e l :
  (match e with EDial _ _ | ESleep _ => True | _ => False end) →
  e ∈ l ↔ e ∈ attempts l.
Proof.
  intros He. unfold attempts. rewrite list_elem_of_omap. split.
  - intros Hin. exists e. split; [done|]. by destruct e.
  - intros (e' & Hin & Heq). destruct e'; try done; by injection Heq as <-.
Qed.

Lemma backoffs_no_success ep k : EDial ep true ∉ backoffs ep k.
Proof.
  induction k as [|k IH]; simpl; [apply not_elem_of_nil|].
  intros Hin. apply elem_of_app in Hin as [Hin|Hin]; [done|].
  apply elem_of_cons in Hin as [?|Hin]; [done|].
  apply elem_of_cons in Hin as [?|Hin]; [done|]. by apply elem_of_nil in Hin.
Qed.

(** The handler of the client a dial goroutine is about to register is
    attached exactly when the goroutine has dialled the connection itself. *)
Lemma handler_of_a_task w dc ds wg0 s i t c :
  reachable w dc ds wg0 s → dials s !! i = Some t → d_pc t = D_Register c →
  cl_handler c = true ↔ EDial (endpoint (d_peer t)) true ∈ d_log t.
Proof.
  intros Hr Hi Hpc.
  assert (Forall (λ t, ∀ c, d_pc t = D_Register c →
                       cl_handler c = true ↔ EDial (endpoint (d_peer t)) true ∈ d_log t)
                 (dials s)) as Hall; [|by apply (Forall_lookup_1 _ _ _ _ Hall Hi)].
  apply (tasks_invariant w dc ds wg0); [done| |done].
  clear. intros q t r q' pc l gone Ht _ Hs c Hpc. simpl in *. subst pc.
  unfold dial_step in Hs. unfold task_inv in Ht.
  destruct (d_pc t) as [|c0 host k|c0| |] eqn:Hpc.
  - destruct (canonical (d_peer t)); [|done]. destruct (clients q !! _); [done|].
    by destruct (SplitHostPort w _) as [|[? ?]].
  - destruct Ht as (-> & _ & _ & Hlog & _).
    assert (EDial (endpoint (d_peer t)) true ∉ d_log t) as Hno.
    { rewrite elem_of_attempts by done. rewrite Hlog. apply backoffs_no_success. }
    destruct (connections q !! host) as [conn|].
    + injection Hs as _ <- <- _. simpl. split; [done|].
      intros Hin. apply elem_of_app in Hin as [Hin|Hin]; [done|].
      apply list_elem_of_singleton in Hin. done.
    + destruct r as [conn|e].
      * injection Hs as _ <- <- _. simpl. split; [|done]. intros _.
        apply elem_of_app. right. apply elem_of_cons. right. apply elem_of_cons. by left.
      * by destruct (RetryOperation_next _ _ _).
  - by destruct (canonical (d_peer t)).
  - done.
  - done.
Qed.

(** X9.  Where a registered client comes from.  Every entry of the table of
    clients was written by a dial goroutine that has returned since, for a
    peer with that canonical address; the client was made for the endpoint of
    that peer and holds a connection.  Its handler for inbound packets is
    attached exactly when that goroutine dialled: a client that was given a
    connection found in the table of connections has none. *)
Theorem registered_client_provenance w dc ds wg0 s key c :
  reachable w dc ds wg0 s → clients (qn s) !! key = Some c →
  ∃ i t,
    dials s !! i = Some t ∧ d_pc t = D_Done ∧
    canonical (d_peer t) = Some key ∧ cl_endpoint c = endpoint (d_peer t) ∧
    is_Some (cl_conn c) ∧
    (cl_handler c = true ↔ EDial (endpoint (d_peer t)) true ∈ d_log t).
Proof.
  intros Hr. revert key c. revert s Hr.
  apply (reachable_induction w dc ds wg0
    (λ s, ∀ key c, clients (qn s) !! key = Some c →
       ∃ i t, dials s !! i = Some t ∧ d_pc t = D_Done ∧
         canonical (d_peer t) = Some key ∧ cl_endpoint c = endpoint (d_peer t) ∧
         is_Some (cl_conn c) ∧
         (cl_handler c = true ↔ EDial (endpoint (d_peer t)) true ∈ d_log t))).
  - intros key c. simpl. by rewrite lookup_empty.
  - intros s c s' Hr IH Hs. revert Hs. unfold step.
    destruct (exited s); [done|]. destruct c as [|a|i r|r sent|].
    + intros H key c Hc.
      assert (clients (qn s') = clients (qn s)) as Hcl.
      { destruct (main_step_qn _ _ _ H) as [->|(l & _ & _ & HS)]; [done|].
        by apply Start_entry_keeps in HS as (_ & _ & -> & _). }
      rewrite Hcl in Hc. destruct (IH key c Hc) as (i & t & Hi & Hrest).
      exists i, t. split; [|done].
      destruct (main_step_frame _ _ _ H) as [->|(p & ps & _ & ->)]; [done|].
      by apply lookup_app_l_Some.
    + intros H key c Hc.
      destruct (server_step_frame _ _ _ H)
        as (_ & _ & Hd & _ & _ & [Hq|(host & conn & _ & _ & Hq)]);
        rewrite Hq in Hc; rewrite Hd; by apply IH.
    + intros H key c Hc.
      destruct (dials_step_frame _ _ _ _ _ H)
        as (t & q & pc & l & gone & Hi & Hs & Hq & Hd & _).
      destruct (dial_step_qn _ _ _ _ _ _ _ _ Hs)
        as (_ & _ & _ & _ & _ & _ & _ & Hcl).
      rewrite Hq in Hc. rewrite Hd.
      assert (Hold : ∀ key c, clients (qn s) !! key = Some c →
        ∃ j tj, <[i := retask t pc l]> (dials s) !! j = Some tj ∧ d_pc tj = D_Done ∧
          canonical (d_peer tj) = Some key ∧ cl_endpoint c = endpoint (d_peer tj) ∧
          is_Some (cl_conn c) ∧
          (cl_handler c = true ↔ EDial (endpoint (d_peer tj)) true ∈ d_log tj)).
      { intros key0 c0 Hc0. destruct (IH key0 c0 Hc0) as (j & tj & Hj & Hdone & Hrest).
        exists j, tj. split; [|done].
        rewrite list_lookup_insert_ne; [done|]. intros ->.
        rewrite Hi in Hj. injection Hj as ->.
        unfold dial_step in Hs. by rewrite Hdone in Hs. }
      destruct Hcl as [Hcl|(key' & c' & Hpc & Hkey & -> & Hcl)]; rewrite Hcl in Hc.
      * by apply Hold.
      * destruct (decide (key' = key)) as [->|Hne].
        -- rewrite lookup_insert_eq in Hc. injection Hc as ->.
           destruct (reachable_task _ _ _ _ _ _ _ Hr Hi) as [Ht _].
           unfold task_inv in Ht. rewrite Hpc in Ht. destruct Ht as (Hep & Hconn & _).
           exists i, (retask t D_Done l). split.
           { apply list_lookup_insert_eq. by eapply lookup_lt_Some. }
           simpl. repeat split; try done.
           ++ intros Hh. apply elem_of_app. left.
              by apply (handler_of_a_task _ _ _ _ _ _ _ _ Hr Hi Hpc).
           ++ intros Hin.
              apply (handler_of_a_task _ _ _ _ _ _ _ _ Hr Hi Hpc).
              apply elem_of_app in Hin as [Hin|Hin]; [done|].
              unfold dial_step in Hs. rewrite Hpc, Hkey in Hs.
              injection Hs as _ <-. by apply elem_of_nil in Hin.
        -- rewrite lookup_insert_ne in Hc by done. by apply Hold.
    + intros H key c Hc.
      destruct (fwd_task_step_frame _ _ _ _ H)
        as (f & _ & _ & _ & Hq & _ & _ & _ & _ & _ & Hd & _).
      rewrite Hq in Hc. rewrite Hd. by apply IH.
    + intros [= <-]. exact IH.
Qed.

(** ** The forwarding loop over many packets *)

(** X10.  Only a failed read ends the forwarding loop.  Whatever the device
    hands over and whatever the send returns, the loop has a transition; the
    process is gone after it exactly when the read failed, and the loop never
    panics.  A failed send is logged and the loop goes on. *)
Theorem forwarding_stops_on_read_error_only w dc ds wg0 s f r sent :
  reachable w dc ds wg0 s → exited s = false → fwd s = Some f →
  ∃ s' f',
    step w s (ChFwd r sent) = Some s' ∧ fwd s' = Some f' ∧
    (exited s' = true ↔ ∃ e, r = ReadErr e) ∧
    panics (f_log f') = panics (f_log f) ∧
    qn s' = qn s.
Proof.
  intros Hr Hex Hf. destruct r as [data|e].
  - destruct (fwd_task_ReadOk w dc ds wg0 s f data sent Hr Hex Hf) as (ip & _ & _ & Hs & _).
    eexists _, _. split; [exact Hs|]. split; [done|]. cbn [exited upd_fwd f_log qn].
    split; [|split; [|done]].
    + rewrite Hex. split; [done|]. by intros [? ?].
    + by rewrite panics_app, panics_turn_log, app_nil_r.
  - eexists _, _. split.
    { unfold step, fwd_task_step. rewrite Hex, Hf. done. }
    split; [done|]. simpl. split; [|split; [|done]].
    + split; eauto.
    + by rewrite panics_app, app_nil_r.
Qed.

(** A packet of twenty bytes or more carries its own destination: what was
    in the buffer before does not show in bytes 16 to 20. *)
Lemma slice_Read_full packet data :
  length packet = 1500 → 20 ≤ length data →
  slice (Read packet data).2 16 20 = slice data 16 20.
Proof.
  intros Hp Hd. rewrite !slice_Some by (rewrite ?Read_length; lia).
  f_equal. apply list_eq. intros j.
  destruct (decide (j < 4)) as [Hj|Hj].
  - rewrite !lookup_take_lt, !lookup_drop by done.
    apply Read_fresh. rewrite Read_n. lia.
  - by rewrite !lookup_take_ge by lia.
Qed.

(** X11.  The loop on its own, with packets of twenty bytes or more: each
    packet is sent once, in the order it was read, to the client under the
    address in its own header, cut to the 1500 bytes of the buffer; the
    packets whose address has no client leave no trace.  A send that fails
    is not repeated. *)
Theorem forwarding_in_order w dc ds wg0 ps : ∀ s f,
  reachable w dc ds wg0 s → exited s = false → fwd s = Some f →
  Forall (λ p, 20 ≤ length p.1) ps →
  ∃ s' f',
    run w s (reads ps) = Some s' ∧ fwd s' = Some f' ∧
    sends (f_log f') = sends (f_log f) ++ omap (route (clients (qn s))) (ps.*1) ∧
    qn s' = qn s ∧ exited s' = false.
Proof.
  induction ps as [|[data sent] ps IH]; intros s f Hr Hex Hf Hlen.
  - exists s, f. simpl. by rewrite app_nil_r.
  - apply Forall_cons in Hlen as [Hd Hlen]. simpl in Hd.
    destruct (fwd_task_ReadOk w dc ds wg0 s f data sent Hr Hex Hf)
      as (ip & Hip & _ & Hs & Hp).
    rewrite slice_Read_full in Hip by done.
    destruct (IH _ _ (reachable_step _ _ _ _ _ _ _ Hr Hs) Hex eq_refl Hlen)
      as (s' & f' & Hrun & Hf' & Hsends & Hq & Hex').
    exists s', f'. split.
    { simpl. rewrite Hs. exact Hrun. }
    split; [done|]. split; [|split; [by rewrite Hq|done]].
    rewrite Hsends. cbn [f_log upd_fwd qn].
    rewrite sends_app, sends_turn_log, <- app_assoc. f_equal.
    cbn [fmap list_fmap fst]. cbn [omap list_omap].
    assert (route (clients (qn s)) data =
            match clients (qn s) !! IP_String ip with
            | Some c => Some (c, take 1500 data)
            | None => None
            end) as -> by (unfold route; by rewrite Hip).
    destruct (clients (qn s) !! IP_String ip); [|done].
    by rewrite Read_front, Hp.
Qed.

(** X12.  What [SendBytes] is given.  Every call made by the forwarding loop
    is on a client that holds a connection, with 1500 bytes at most. *)
Theorem sends_are_bounded w dc ds wg0 s f :
  reachable w dc ds wg0 s → fwd s = Some f →
  Forall (λ cd, is_Some (cl_conn cd.1) ∧ length cd.2 ≤ 1500) (sends (f_log f)).
Proof.
  intros Hr. revert f. revert s Hr.
  apply (reachable_induction w dc ds wg0
    (λ s, ∀ f, fwd s = Some f →
       Forall (λ cd, is_Some (cl_conn cd.1) ∧ length cd.2 ≤ 1500) (sends (f_log f)))).
  - done.
  - intros s c s' Hr IH Hs.
    pose proof (step_live _ _ _ _ Hs) as Hex. revert Hs.
    destruct c as [|a|i r|r sent|].
    + unfold step. rewrite Hex. intros H f' Hf'. unfold main_step in H.
      destruct (main s) as [| | |[|p ps]| |r].
      * destruct (Start_entry w (qn s)) as [[?| |?] ?]; injection H as <-; by apply IH.
      * destruct (disableServer (qn s)); injection H as <-; by apply IH.
      * case_decide; [|done]. injection H as <-; by apply IH.
      * injection H as <-; by apply IH.
      * injection H as <-; by apply IH.
      * injection H as <-. injection Hf' as <-. constructor.
      * done.
    + unfold step. rewrite Hex. intros H.
      destruct (server_step_frame _ _ _ H) as (_ & _ & _ & -> & _). exact IH.
    + unfold step. rewrite Hex. intros H.
      destruct (dials_step_frame _ _ _ _ _ H)
        as (t & q & pc & l & gone & _ & _ & _ & _ & _ & _ & _ & _ & _ & _ & -> & _).
      exact IH.
    + intros H f' Hf'.
      assert (∃ f, fwd s = Some f) as [f Hf].
      { unfold step, fwd_task_step in H. rewrite Hex in H.
        destruct (fwd s); [eauto|done]. }
      destruct r as [data|e].
      * destruct (fwd_task_ReadOk w dc ds wg0 s f data sent Hr Hex Hf)
          as (ip & _ & _ & Hs & Hp).
        rewrite Hs in H. injection H as <-. injection Hf' as <-.
        cbn [f_log]. rewrite sends_app, sends_turn_log.
        apply Forall_app. split; [by apply IH|].
        destruct (clients (qn s) !! IP_String ip) as [c|] eqn:Hc; [|constructor].
        apply Forall_cons. split; [|constructor]. split; cbn [fst snd].
        -- by destruct (inv_clients _ _ _ _ _ (reachable_inv _ _ _ _ _ Hr) _ _ Hc)
             as (_ & _ & _ & _ & ?).
        -- rewrite length_take. lia.
      * unfold step, fwd_task_step in H. rewrite Hex, Hf in H. simpl in H.
        injection H as <-. injection Hf' as <-. simpl.
        rewrite sends_app, app_nil_r. by apply IH.
    + unfold step. rewrite Hex. intros [= <-]. exact IH.
Qed.

(** ** Nothing is sent later *)

(** X16.  A packet is sent in the turn that read it or never.  Once the
    forwarding loop runs, a transition adds to its sends only when it is a
    turn of the loop that read a packet whose destination has a client at
    that moment, and then it adds that packet alone: a packet that found no
    client is not kept for a client registered later. *)
Theorem sent_in_its_turn_or_never w dc ds wg0 s f c s' :
  reachable w dc ds wg0 s → fwd s = Some f → step w s c = Some s' →
  ∃ f', fwd s' = Some f' ∧
        sends (f_log f') = sends (f_log f) ++ sent_by (qn s) (f_packet f) c.
Proof.
  intros Hr Hf Hs. pose proof (step_live _ _ _ _ Hs) as Hex.
  destruct c as [|a|i r|[data|e] sent|].
  - exfalso. unfold step in Hs. rewrite Hex in Hs.
    pose proof (inv_main _ _ _ _ _ (reachable_inv _ _ _ _ _ Hr)) as Hm.
    unfold main_inv, main_step in *.
    destruct (main s) as [| | |ps| |[e|]]; rewrite Hf in Hm; by intuition congruence.
  - unfold step in Hs. rewrite Hex in Hs.
    destruct (server_step_frame _ _ _ Hs) as (_ & _ & _ & -> & _).
    exists f. by rewrite app_nil_r.
  - unfold step in Hs. rewrite Hex in Hs.
    destruct (dials_step_frame _ _ _ _ _ Hs)
      as (t & q & pc & l & gone & _ & _ & _ & _ & _ & _ & _ & _ & _ & _ & -> & _).
    exists f. by rewrite app_nil_r.
  - destruct (fwd_task_ReadOk w dc ds wg0 s f data sent Hr Hex Hf) as (ip & Hip & _ & Hs' & Hp).
    rewrite Hs' in Hs. injection Hs as <-.
    eexists. split; [done|]. cbn [f_log]. rewrite sends_app, sends_turn_log.
    f_equal. unfold sent_by.
    assert (dst_of (Read (f_packet f) data).2 = Some (IP_String ip)) as ->
      by (unfold dst_of; by rewrite Hip).
    destruct (clients (qn s) !! IP_String ip) as [cl|]; [|done].
    pose proof (Read_front (f_packet f) data) as Hfront. rewrite Hp in Hfront.
    exact (f_equal (λ x, [(cl, x)]) Hfront).
  - unfold step, fwd_task_step in Hs. rewrite Hex, Hf in Hs. simpl in Hs.
    injection Hs as <-. eexists. split; [done|]. simpl.
    by rewrite sends_app.
  - unfold step in Hs. rewrite Hex in Hs. injection Hs as <-.
    exists f. by rewrite app_nil_r.
Qed.

(** ** The transitions of a dial goroutine *)

Lemma dial_turns_snoc i cs c :
  dial_turns i (cs ++ [c]) =
  dial_turns i cs + match c with ChDial j _ => if decide (j = i) then 1 else 0 | _ => 0 end.
Proof.
  unfold dial_turns. rewrite omap_app, length_app. f_equal.
  destruct c as [|a|j r|r sent|]; try done. simpl. by case_decide.
Qed.

Lemma dial_step_turns_left w q t r q' pc l gone :
  task_inv w t → dial_step w q t r = Some (q', pc, l, gone) →
  S (turns_left (retask t pc l)) ≤ turns_left t.
Proof.
  unfold dial_step, task_inv, turns_left. intros Ht Hs.
  destruct (d_pc t) as [|c host k|c| |]; simpl.
  - destruct (canonical (d_peer t)); [|injection Hs as _ <- _ _; simpl; lia].
    destruct (clients q !! _); [injection Hs as _ <- _ _; simpl; lia|].
    destruct (SplitHostPort w _) as [|[? ?]]; injection Hs as _ <- _ _; simpl; lia.
  - destruct Ht as (_ & _ & _ & _ & Hk). unfold retries in *.
    destruct (connections q !! host); [injection Hs as _ <- _ _; simpl; lia|].
    destruct r; [injection Hs as _ <- _ _; simpl; lia|].
    destruct (RetryOperation_next _ _ _) eqn:Hn; injection Hs as _ <- _ _; simpl; [|lia].
    apply RetryOperation_next_Some in Hn as [Hn _]. lia.
  - destruct (canonical (d_peer t)); [|done]. injection Hs as _ <- _ _. simpl. lia.
  - done.
  - done.
Qed.

(** X17.  A dial goroutine ends.  In a run of the process the goroutine of a
    peer makes twelve transitions at most: its first statement, up to ten
    attempts of the retry loop and the registration.  The transitions it has
    made and those it may still make never add up to more. *)
Theorem dial_goroutine_ends w dc ds wg0 cs s i :
  run w (boot dc ds wg0) cs = Some s →
  dial_turns i cs ≤ 12 ∧
  match dials s !! i with
  | Some t => dial_turns i cs + turns_left t ≤ 12
  | None => dial_turns i cs = 0
  end.
Proof.
  intros Hrun.
  enough (match dials s !! i with
          | Some t => dial_turns i cs + turns_left t ≤ 12
          | None => dial_turns i cs = 0
          end) as H.
  { split; [|done]. destruct (dials s !! i); lia. }
  revert s Hrun. induction cs as [|c cs IH] using rev_ind; intros s Hrun.
  - injection Hrun as <-. done.
  - rewrite run_app in Hrun.
    destruct (run w (boot dc ds wg0) cs) as [s1|] eqn:H1; [|done].
    simpl in Hrun. destruct (step w s1 c) as [s2|] eqn:H2; [|done].
    injection Hrun as <-. specialize (IH s1 eq_refl).
    assert (reachable w dc ds wg0 s1) as Hr by (by exists cs).
    rewrite dial_turns_snoc. revert H2. unfold step.
    destruct (exited s1); [done|]. destruct c as [|a|j r|r sent|].
    + intros H. rewrite Nat.add_0_r.
      destruct (main_step_frame _ _ _ H) as [->|(p & ps & _ & ->)]; [done|].
      destruct (dials s1 !! i) as [t|] eqn:Hi.
      * by rewrite (lookup_app_l_Some _ _ _ _ Hi).
      * apply lookup_ge_None in Hi.
        destruct (decide (i = length (dials s1))) as [->|Hne].
        -- rewrite lookup_app_r, Nat.sub_diag by done. simpl. rewrite IH.
           unfold turns_left, retries. simpl. lia.
        -- rewrite lookup_ge_None_2; [done|]. rewrite length_app. simpl. lia.
    + intros H. rewrite Nat.add_0_r.
      by destruct (server_step_frame _ _ _ H) as (_ & _ & -> & _).
    + intros H. destruct (dials_step_frame _ _ _ _ _ H)
        as (t & q & pc & l & gone & Hj & Hs & _ & -> & _).
      case_decide as Hij.
      * subst j. rewrite Hj in IH.
        rewrite list_lookup_insert_eq by (by eapply lookup_lt_Some).
        destruct (reachable_task _ _ _ _ _ _ _ Hr Hj) as [Ht _].
        pose proof (dial_step_turns_left _ _ _ _ _ _ _ _ Ht Hs). lia.
      * rewrite Nat.add_0_r. by rewrite list_lookup_insert_ne.
    + intros H. rewrite Nat.add_0_r.
      by destruct (fwd_task_step_frame _ _ _ _ H)
        as (f & _ & _ & _ & _ & _ & _ & _ & _ & _ & -> & _).
    + intros [= <-]. by rewrite Nat.add_0_r.
Qed.

(** ** quicnet *)

Lemma dial_loop_spec ep dial : ∀ fuel retries,
  retries ≤ 5 → 6 - retries ≤ fuel →
  ∃ r l, QuicNet.dial_loop fuel ep dial retries = Some (r, l) ∧
    ((∃ k conn, r = Some conn ∧ retries + k ≤ 5 ∧ dial (retries + k) = DialOk conn ∧
        (∀ j, j < k → ∃ e, dial (retries + j) = DialErr e) ∧
        attempts l = QuicNet.waits ep (10 * Second)%Z k ++ [EDial ep true]) ∨
     (r = None ∧ (∀ j, retries + j ≤ 5 → ∃ e, dial (retries + j) = DialErr e) ∧
        attempts l = QuicNet.waits ep (10 * Second)%Z (5 - retries) ++ [EDial ep false])).
Proof.
  induction fuel as [|fuel IH]; intros retries Hr Hf; [lia|].
  simpl. destruct (dial retries) as [conn|e] eqn:Hd.
  - eexists _, _. split; [done|]. left. exists 0, conn.
    rewrite Nat.add_0_r.
    split; [done|]. split; [done|]. split; [done|]. split; [|done].
    intros j Hj. lia.
  - case_decide as Hlast.
    + eexists _, _. split; [done|]. right.
      assert (retries = 5) as -> by lia.
      split; [done|]. split; [|done].
      intros j Hj. assert (j = 0) as -> by lia. eauto.
    + destruct (IH (retries + 1)) as (r & l & -> & Hspec); [lia..|].
      eexists _, _. split; [done|].
      destruct Hspec as [(k & conn & -> & Hk & Hok & Herr & Hlog)|(-> & Herr & Hlog)].
      * left. exists (S k), conn.
        split; [done|]. split; [lia|].
        split; [by replace (retries + S k) with (retries + 1 + k) by lia|].
        split.
        -- intros [|j] Hj; [rewrite Nat.add_0_r; eauto|].
           replace (retries + S j) with (retries + 1 + j) by lia. apply Herr. lia.
        -- change (attempts (?a :: ?b :: ?c :: ESleep ?d :: l))
             with (a :: ESleep d :: attempts l). by rewrite Hlog.
      * right. split; [done|]. split.
        -- intros [|j] Hj; [rewrite Nat.add_0_r; eauto|].
           replace (retries + S j) with (retries + 1 + j) by lia. apply Herr. lia.
        -- change (attempts (?a :: ?b :: ?c :: ESleep ?d :: l))
             with (a :: ESleep d :: attempts l). rewrite Hlog.
           replace (5 - retries) with (S (5 - (retries + 1))) by lia. done.
Qed.

Lemma dial_count_waits ep d k : dial_count (QuicNet.waits ep d k) = k.
Proof.
  induction k as [|k IH]; [done|].
  change (dial_count (EDial ep false :: ESleep d :: QuicNet.waits ep d k) = S k).
  rewrite <- IH at 2. done.
Qed.

Lemma dial_loop_no_sends ep dial : ∀ fuel retries r l,
  QuicNet.dial_loop fuel ep dial retries = Some (r, l) → sends l = [].
Proof.
  induction fuel as [|fuel IH]; intros retries r l; [done|].
  simpl. destruct (dial retries) as [conn|e].
  - by intros [= <- <-].
  - case_decide; [by intros [= <- <-]|].
    destruct (QuicNet.dial_loop fuel ep dial (retries + 1)) as [[r' l']|] eqn:Hl; [|done].
    intros [= <- <-]. simpl. by eapply IH.
Qed.

(** X18.  The dial loop of quicnet ends after six dials at most, whatever the
    peer does.  Between two dials it waits ten seconds.  It leaves with the
    connection of the first dial that succeeds among the first six, and
    without a connection when all six fail. *)
Theorem quicnet_dial_loop ep dial fuel :
  6 ≤ fuel →
  ∃ r l,
    QuicNet.dial_loop fuel ep dial 0 = Some (r, l) ∧ dial_count l ≤ 6 ∧
    ((∃ k conn, r = Some conn ∧ k ≤ 5 ∧ dial k = DialOk conn ∧
        (∀ j, j < k → ∃ e, dial j = DialErr e) ∧
        attempts l = QuicNet.waits ep (10 * Second)%Z k ++ [EDial ep true]) ∨
     (r = None ∧ (∀ j, j ≤ 5 → ∃ e, dial j = DialErr e) ∧
        attempts l = QuicNet.waits ep (10 * Second)%Z 5 ++ [EDial ep false])).
Proof.
  intros Hf.
  destruct (dial_loop_spec ep dial fuel 0) as (r & l & Hl & Hspec); [lia..|].
  exists r, l. split; [done|]. split.
  - rewrite <- dial_count_attempts.
    destruct Hspec as [(k & conn & _ & Hk & _ & _ & ->)|(_ & _ & ->)];
      rewrite dial_count_app, dial_count_waits; unfold dial_count; simpl in *; lia.
  - destruct Hspec as [(k & conn & -> & Hk & Hok & Herr & Hlog)|(-> & Herr & Hlog)].
    + left. exists k, conn. simpl in *. auto 10.
    + right. simpl in *. auto.
Qed.

Lemma events_Ev l : QuicNet.events (QuicNet.Ev <$> l) = l.
Proof.
  induction l as [|e l IH]; [done|].
  rewrite fmap_cons. change (e :: QuicNet.events (QuicNet.Ev <$> l) = e :: l). by rewrite IH.
Qed.

Lemma events_app l1 l2 : QuicNet.events (l1 ++ l2) = QuicNet.events l1 ++ QuicNet.events l2.
Proof. apply omap_app. Qed.

Lemma fwd_loop_cons c packet data sent rs :
  QuicNet.fwd_loop c packet ((ReadOk data, sent) :: rs) =
  (([QuicNet.Ev (ELog Info "Received packet: %v");
     QuicNet.Ev (ESend c (Read packet data).2 (bool_decide (sent = None)))] ++
    match sent with
    | Some _ => [QuicNet.Printf "failed to send client message: %v"]
    | None => []
    end) ++ (QuicNet.fwd_loop c (Read packet data).2 rs).1,
   (QuicNet.fwd_loop c (Read packet data).2 rs).2).
Proof.
  simpl. unfold Read. simpl. by destruct (QuicNet.fwd_loop _ _ _).
Qed.

Lemma quicnet_fwd_loop c (ps : list (list byte * option error)) : ∀ packet,
  length packet = 1500 →
  ∃ l, QuicNet.fwd_loop c packet ((λ p, (ReadOk p.1, p.2)) <$> ps) = (l, false) ∧
    length (sends (QuicNet.events l)) = length ps ∧
    ∀ j data payload,
      ps.*1 !! j = Some data → sends (QuicNet.events l) !! j = Some payload →
      payload.1 = c ∧ length payload.2 = 1500 ∧
      take (length data `min` 1500) payload.2 = take 1500 data.
Proof.
  induction ps as [|[data sent] ps IH]; intros packet Hp.
  - exists []. done.
  - rewrite fmap_cons. cbn [fst snd]. rewrite fwd_loop_cons.
    destruct (IH (Read packet data).2) as (l & -> & Hcount & Hsends).
    { by rewrite Read_length. }
    eexists. split; [done|]. cbn [fst].
    assert (sends (QuicNet.events
              (([QuicNet.Ev (ELog Info "Received packet: %v");
                 QuicNet.Ev (ESend c (Read packet data).2 (bool_decide (sent = None)))] ++
                match sent with
                | Some _ => [QuicNet.Printf "failed to send client message: %v"]
                | None => []
                end) ++ l)) = (c, (Read packet data).2) :: sends (QuicNet.events l)) as ->.
    { rewrite events_app, sends_app. by destruct sent. }
    split; [cbn [length]; by rewrite Hcount|].
    intros [|j] d payload Hd Hpay.
    + injection Hd as <-. injection Hpay as <-.
      split; [done|]. split; [exact (eq_trans (Read_length packet data) Hp)|].
      pose proof (Read_front packet data) as Hfront.
      rewrite Read_n, Hp in Hfront. exact Hfront.
    + exact (Hsends j d payload Hd Hpay).
Qed.

(** X19.  The forwarding loop of quicnet.  It is entered whether the dial loop
    got a connection or not.  For every packet read it calls [SendBytes] once
    on the one client, and it hands over the whole buffer of 1500 bytes: the
    packet read comes first and what the buffer held before follows it. *)
Theorem quicnet_sends_the_whole_buffer fuel qn dial (ps : list (list byte * option error)) :
  6 ≤ fuel →
  ∃ c l,
    QuicNet.client_goroutine fuel qn dial ((λ p, (ReadOk p.1, p.2)) <$> ps)
      = Some (c, l, false) ∧
    cl_endpoint c = QuicNet.remotePeerPortStr qn ∧
    (cl_conn c = None ↔ ∀ j, j ≤ 5 → ∃ e, dial j = DialErr e) ∧
    length (sends (QuicNet.events l)) = length ps ∧
    ∀ j data payload,
      ps.*1 !! j = Some data → sends (QuicNet.events l) !! j = Some payload →
      payload.1 = c ∧ length payload.2 = 1500 ∧
      take (length data `min` 1500) payload.2 = take 1500 data.
Proof.
  intros Hf. unfold QuicNet.client_goroutine.
  destruct (quicnet_dial_loop (QuicNet.remotePeerPortStr qn) dial fuel Hf)
    as (r & l & Hl & _ & Hspec).
  rewrite Hl.
  destruct (quicnet_fwd_loop
              {| cl_endpoint := QuicNet.remotePeerPortStr qn; cl_conn := r;
                 cl_handler := false |} ps new_packet)
    as (l' & -> & Hcount & Hsends).
  { apply length_replicate. }
  eexists _, _. split; [done|]. split; [done|].
  assert (sends (QuicNet.events ((QuicNet.Ev <$> l) ++ l')) = sends (QuicNet.events l')) as ->.
  { by rewrite events_app, events_Ev, sends_app, (dial_loop_no_sends _ _ _ _ _ _ Hl). }
  split; [|done]. simpl.
  destruct Hspec as [(k & conn & -> & Hk & Hok & _)|(-> & Herr & _)].
  - split; [done|]. intros Hall. destruct (Hall k Hk) as [e He]. congruence.
  - done.
Qed.

(** X20.  The two versions bring the device up alike.  Given the same
    address, [createTunIface] of quicnet and of quicmesh fail together and
    succeed together, after the same three steps, and on success record the
    same interface; neither records an interface when a step has failed. *)
Theorem both_versions_create_the_device_alike w qn q :
  QuicNet.localIp qn = localEndpoint (nodeInterface (qc q)) →
  match (QuicNet.createTunIface w qn).1, (createTunIface w q).1 with
  | inr qn', inr q' =>
    QuicNet.localIf qn' = localIf q' ∧ water_New w = inr (default "" (localIf q')) ∧
    is_Some (localIf q')
  | inl _, inl _ =>
    (∃ e, water_New w = inl e) ∨
    (∃ name, water_New w = inr name ∧
       (is_Some (ip_addr_add w (QuicNet.localIp qn +:+ "/24") name) ∨
        is_Some (ip_link_up w name)))
  | _, _ => False
  end.
Proof.
  intros Hip. unfold QuicNet.createTunIface, createTunIface. rewrite <- Hip.
  destruct (water_New w) as [e|name]; simpl; [eauto|].
  destruct (ip_addr_add w _ name) eqn:Ha; simpl; [right; eauto 10|].
  destruct (ip_link_up w name) eqn:Hl; simpl; [right; eauto 10|].
  eauto.
Qed.

(** * The further properties on the sample mesh *)

Section MoreOnTheSample.
Import Sample Runs.

Lemma reachable_after' w dc ds cs :
  match run w (boot dc ds 0) cs with Some _ => true | None => false end = true →
  reachable w dc ds 0 (after w dc ds cs).
Proof.
  intros H. exists cs. unfold after. by destruct (run w (boot dc ds 0) cs).
Qed.

Lemma X1_witness :
  readQuicConf w0 = inr (qc (qn s0)) ∧ is_Some (localIf (qn s0)).
Proof.
  apply (device_and_config_before_goroutines w0 false false 0 s0).
  - apply reachable_after'. vm_compute. reflexivity.
  - left. vm_compute. eexists. reflexivity.
Defined.

Lemma X2_witness :
  symmetricNAT (qn (after w_sym false false listening)) = false ∧
  portBinding (qn (after w_sym false false listening)) = "".
Proof.
  apply (nat_fields_never_written w_sym false false 0).
  apply reachable_after'. vm_compute. reflexivity.
Defined.

Lemma X3_witness :
  stuns (main_log s0) = [] ∨
  ∃ conf, readQuicConf w0 = inr conf ∧ false = false ∧
    let port := listenPort (nodeInterface conf) in
    (stuns (main_log s0) = [EStunNAT port] ∧ (IsSymmetricNAT w0 port).1 = true) ∨
    (stuns (main_log s0) = [EStunNAT port; EStunBinding port] ∧
     (IsSymmetricNAT w0 port).1 = false).
Proof.
  apply (stun_requests w0 false false 0 s0).
  apply reachable_after'. vm_compute. reflexivity.
Defined.

Lemma X5_witness :
  dials (after w0 true false client_off) = [] ∧
  clients (qn (after w0 true false client_off)) = ∅ ∧
  sends (f_log (fwd_of (after w0 true false client_off))) = [].
Proof.
  destruct (client_side_disabled w0 false 0 (after w0 true false client_off))
    as (Hd & Hc & Hs).
  - apply reachable_after'. vm_compute. reflexivity.
  - split; [exact Hd|]. split; [exact Hc|]. apply Hs. vm_compute. reflexivity.
Defined.

Lemma X6_witness :
  server (after w_shared false true shared) = None ∧
  connections (qn (after w_shared false true shared)) = ∅.
Proof.
  destruct (server_side_disabled w_shared false 0 (after w_shared false true shared))
    as (Hs & _ & _ & Hc & _).
  - apply reachable_after'. vm_compute. reflexivity.
  - auto.
Defined.

Lemma X7_witness :
  d_peer <$> dials s0 = peers (qc (qn s0)) ∧ is_Some (fwd s0).
Proof.
  destruct (one_dial_goroutine_per_peer w0 false 0 s0) as (_ & Hall & Hfwd).
  - apply reachable_after'. vm_compute. reflexivity.
  - assert (main s0 = M_Returned None) as Hm by (vm_compute; reflexivity).
    split; [by apply Hall|by apply Hfwd].
Defined.

Lemma X8_witness :
  dial_count (d_log (task (after w_bad false false bad_run) 0)) = 0 ∧
  exited (after w_bad false false bad_run) = true.
Proof.
  destruct (no_dial_for_a_malformed_peer w_bad false false 0
              (after w_bad false false bad_run) 0
              (task (after w_bad false false bad_run) 0)) as [Hc Hpc].
  - apply reachable_after'. vm_compute. reflexivity.
  - vm_compute. reflexivity.
  - intros [[key Hkey] _]. vm_compute in Hkey. discriminate.
  - split; [exact Hc|]. destruct Hpc as [H|[H|[_ H]]]; [vm_compute in H; discriminate..|exact H].
Defined.

Lemma X9_witness :
  ∃ i t, dials s0 !! i = Some t ∧ d_pc t = D_Done ∧ canonical (d_peer t) = Some "10.1.0.3" ∧
         EDial (endpoint (d_peer t)) true ∈ d_log t.
Proof.
  destruct (registered_client_provenance w0 false false 0 s0 "10.1.0.3" c2)
    as (i & t & Hi & Hpc & Hkey & _ & _ & Hh).
  - apply reachable_after'. vm_compute. reflexivity.
  - vm_compute. reflexivity.
  - exists i, t. split; [exact Hi|]. split; [exact Hpc|]. split; [exact Hkey|].
    apply Hh. reflexivity.
Defined.

Lemma X10_witness :
  ∃ s', step w0 s0 (ChFwd (ReadOk (ipv4 [10; 1; 0; 2]%N 20)) (Some "connection closed")) = Some s' ∧
        ¬ exited s' = true.
Proof.
  destruct (forwarding_stops_on_read_error_only w0 false false 0 s0 f0
              (ReadOk (ipv4 [10; 1; 0; 2]%N 20)) (Some "connection closed"))
    as (s' & f' & Hs & _ & Hex & _).
  - apply reachable_after'. vm_compute. reflexivity.
  - vm_compute. reflexivity.
  - vm_compute. reflexivity.
  - exists s'. split; [exact Hs|]. intros H. apply Hex in H as [e He]. discriminate.
Defined.

Lemma X11_witness :
  ∃ s' f', run w0 s0 (reads three_packets) = Some s' ∧ fwd s' = Some f' ∧
    sends (f_log f') =
    sends (f_log f0) ++ omap (route (clients (qn s0))) (three_packets.*1).
Proof.
  destruct (forwarding_in_order w0 false false 0 three_packets s0 f0)
    as (s' & f' & Hrun & Hf & Hs & _).
  - apply reachable_after'. vm_compute. reflexivity.
  - vm_compute. reflexivity.
  - vm_compute. reflexivity.
  - repeat (apply Forall_cons; split; [vm_compute; lia|]). constructor.
  - exists s', f'. auto.
Defined.

(** The three packets: the first goes to the second peer, the second to
    nobody, the third to the first peer. *)
Example three_packets_routed :
  omap (route (clients (qn s0))) (three_packets.*1) =
  [(c2, ipv4 [10; 1; 0; 3]%N 28); (c1, ipv4 [10; 1; 0; 2]%N 20)].
Proof. vm_compute. reflexivity. Qed.

Lemma X12_witness :
  Forall (λ cd, is_Some (cl_conn cd.1) ∧ length cd.2 ≤ 1500)
    (sends (f_log (fwd_of (after w0 false false (up ++ reads three_packets))))).
Proof.
  apply (sends_are_bounded w0 false false 0 (after w0 false false (up ++ reads three_packets))).
  - apply reachable_after'. vm_compute. reflexivity.
  - vm_compute. reflexivity.
Defined.

Lemma X13_witness :
  dom (clients (qn (boot false false 0))) ⊆ dom (clients (qn s0)) ∧
  dom (connections (qn (boot false false 0))) ⊆ dom (connections (qn s0)).
Proof.
  apply (tables_only_grow w0 up). vm_compute. reflexivity.
Defined.

Lemma X14_witness :
  connections (qn (after w0 false false (inbound ++ [ChDial 1 (DialOk 2)]))) =
  connections (qn (after w0 false false inbound)) ∧
  dials (after w0 false false (inbound ++ [ChDial 1 (DialOk 2)])) !! 0 =
  dials (after w0 false false inbound) !! 0.
Proof.
  destruct (dial_task_touches_its_own w0 (after w0 false false inbound) 1 (DialOk 2)
              (after w0 false false (inbound ++ [ChDial 1 (DialOk 2)])))
    as (Hother & _ & Hco & _).
  - vm_compute. reflexivity.
  - split; [exact Hco|]. apply Hother. discriminate.
Defined.

Lemma X16_witness :
  ∃ f', fwd (after w0 false false (up ++ [ChFwd (ReadOk (ipv4 [10; 1; 0; 9]%N 40)) None]))
          = Some f' ∧
        sends (f_log f') =
        sends (f_log f0) ++
        sent_by (qn s0) (f_packet f0) (ChFwd (ReadOk (ipv4 [10; 1; 0; 9]%N 40)) None).
Proof.
  apply (sent_in_its_turn_or_never w0 false false 0 s0 f0).
  - apply reachable_after'. vm_compute. reflexivity.
  - vm_compute. reflexivity.
  - vm_compute. reflexivity.
Defined.

Lemma X17_witness :
  dial_turns 0 unreachable ≤ 12 ∧
  match dials (after w0 false false unreachable) !! 0 with
  | Some t => dial_turns 0 unreachable + turns_left t ≤ 12
  | None => dial_turns 0 unreachable = 0
  end.
Proof.
  apply (dial_goroutine_ends w0 false false 0 unreachable (after w0 false false unreachable) 0).
  vm_compute. reflexivity.
Defined.

(** The goroutine of the peer that is never there has made eleven
    transitions when the process ends. *)
Example eleven_turns : dial_turns 0 unreachable = 11.
Proof. vm_compute. reflexivity. Qed.

Lemma X18_witness :
  ∃ r l, QuicNet.dial_loop 6 "10.0.0.2:4242" flaky 0 = Some (r, l) ∧ dial_count l ≤ 6.
Proof.
  destruct (quicnet_dial_loop "10.0.0.2:4242" flaky 6) as (r & l & Hl & Hc & _); [lia|].
  exists r, l. auto.
Defined.

(** Two refused dials, two waits of ten seconds, and the third dial gives
    the connection. *)
Example flaky_dials :
  (λ rl, (rl.1, attempts rl.2)) <$> QuicNet.dial_loop 6 "10.0.0.2:4242" flaky 0 =
  Some (Some 4, QuicNet.waits "10.0.0.2:4242" (10 * Second)%Z 2 ++ [EDial "10.0.0.2:4242" true]).
Proof. vm_compute. reflexivity. Qed.

Lemma X19_witness :
  ∃ c l,
    QuicNet.client_goroutine 6 qn0 flaky ((λ p, (ReadOk p.1, p.2)) <$> three_packets)
      = Some (c, l, false) ∧
    length (sends (QuicNet.events l)) = 3.
Proof.
  destruct (quicnet_sends_the_whole_buffer 6 qn0 flaky three_packets)
    as (c & l & Hrun & _ & _ & Hlen & _); [lia|].
  exists c, l. auto.
Defined.

(** The packet of twenty bytes for the first peer leaves as 1500 bytes. *)
Example twenty_bytes_leave_as_1500 :
  (λ r, (λ cd, length cd.2) <$> sends (QuicNet.events r.1.2)) <$>
    QuicNet.client_goroutine 6 qn0 flaky [(ReadOk (ipv4 [10; 1; 0; 2]%N 20), None)] =
  Some [1500].
Proof. vm_compute. reflexivity. Qed.

Lemma X20_witness :
  match (QuicNet.createTunIface w0 qn0).1, (createTunIface w0 (qn s0)).1 with
  | inr qn', inr q' =>
    QuicNet.localIf qn' = localIf q' ∧ water_New w0 = inr (default "" (localIf q')) ∧
    is_Some (localIf q')
  | inl _, inl _ =>
    (∃ e, water_New w0 = inl e) ∨
    (∃ name, water_New w0 = inr name ∧
       (is_Some (ip_addr_add w0 (QuicNet.localIp qn0 +:+ "/24") name) ∨
        is_Some (ip_link_up w0 name)))
  | _, _ => False
  end.
Proof.
  apply (both_versions_create_the_device_alike w0 qn0 (qn s0)).
  vm_compute. reflexivity.
Defined.

End MoreOnTheSample.
